(** * The lavalink player session controller (src/structures/Player.ts)

    A shallow embedding of [Player.ts]: the class fields become a record,
    every [async] method becomes a computation in a small state-and-exception
    monad over the player and the log of calls made to its collaborators
    (the node's [updatePlayer], the manager's [emit]).

    Idealisations, stated once:
    - a JavaScript [number] is NaN, an infinity, or an exact rational: IEEE
      rounding of doubles and the sign of zero are not modelled;
    - the collaborators that are not part of [Player.ts] ([Queue], [Track],
      [LavalinkNode], [utilManager.buildTrack]) are either parameters of a
      section or small models written from the specification, each marked
      as such;
    - a rejected promise of the transport is not modelled: [updatePlayer]
      records its argument and returns;
    - the values a caller hands over are parsed data and built-in
      functions: objects with accessors or frozen properties, and changes
      made to an object after it was handed over, are not modelled. *)

From Stdlib Require Import ZArith QArith Qcanon Qround.
From stdpp Require Import base decidable option list strings gmap fin_maps pretty.

Local Open Scope Z_scope.

(** ** JavaScript numbers *)

Inductive number : Type :=
| NaN
| NegInf
| Fin (q : Qc)
| PosInf.

#[global] Instance number_eq_dec : EqDecision number.
Proof. solve_decision. Defined.

Module Num.

Definition ofZ (z : Z) : number := Fin (Q2Qc (inject_Z z)).
Definition ofQ (q : Q) : number := Fin (Q2Qc q).

Definition isNaN (n : number) : bool :=
  match n with NaN => true | _ => false end.

(** [a < b]; every comparison with NaN is false. *)
Definition lt (a b : number) : bool :=
  match a, b with
  | NaN, _ | _, NaN => false
  | NegInf, NegInf => false
  | NegInf, _ => true
  | Fin _, NegInf => false
  | Fin x, Fin y => bool_decide (x < y)%Qc
  | Fin _, PosInf => true
  | PosInf, _ => false
  end.

(** [a <= b]. *)
Definition le (a b : number) : bool :=
  match a, b with
  | NaN, _ | _, NaN => false
  | NegInf, _ => true
  | Fin _, NegInf => false
  | Fin x, Fin y => bool_decide (x ≤ y)%Qc
  | Fin _, PosInf => true
  | PosInf, PosInf => true
  | PosInf, _ => false
  end.

Definition gt (a b : number) : bool := lt b a.
Definition ge (a b : number) : bool := le b a.

(** [a === b] on numbers: NaN differs from itself. *)
Definition strict_eq (a b : number) : bool :=
  match a, b with
  | NaN, _ | _, NaN => false
  | _, _ => bool_decide (a = b)
  end.

(** ToBoolean on a number: 0 and NaN are falsy. *)
Definition truthy (n : number) : bool :=
  match n with
  | NaN => false
  | Fin q => negb (bool_decide (q = 0%Qc))
  | _ => true
  end.

(** [Math.min(a, b)] and [Math.max(a, b)]: NaN if either argument is. *)
Definition min (a b : number) : number :=
  match a, b with
  | NaN, _ | _, NaN => NaN
  | _, _ => if lt b a then b else a
  end.

Definition max (a b : number) : number :=
  match a, b with
  | NaN, _ | _, NaN => NaN
  | _, _ => if lt a b then b else a
  end.

Definition neg (a : number) : number :=
  match a with
  | NaN => NaN
  | NegInf => PosInf
  | Fin q => Fin (- q)%Qc
  | PosInf => NegInf
  end.

(** Sign of a finite value, zero counted as positive zero. *)
Definition negative (q : Qc) : bool := bool_decide (q < 0)%Qc.

Definition signed_inf (is_neg : bool) : number :=
  if is_neg then NegInf else PosInf.

Definition add (a b : number) : number :=
  match a, b with
  | NaN, _ | _, NaN => NaN
  | NegInf, PosInf | PosInf, NegInf => NaN
  | NegInf, _ | _, NegInf => NegInf
  | PosInf, _ | _, PosInf => PosInf
  | Fin x, Fin y => Fin (x + y)%Qc
  end.

Definition sub (a b : number) : number := add a (neg b).

Definition mul (a b : number) : number :=
  match a, b with
  | NaN, _ | _, NaN => NaN
  | Fin x, Fin y => Fin (x * y)%Qc
  | Fin x, PosInf | PosInf, Fin x =>
      if bool_decide (x = 0%Qc) then NaN else signed_inf (negative x)
  | Fin x, NegInf | NegInf, Fin x =>
      if bool_decide (x = 0%Qc) then NaN else signed_inf (negb (negative x))
  | PosInf, PosInf | NegInf, NegInf => PosInf
  | PosInf, NegInf | NegInf, PosInf => NegInf
  end.

Definition div (a b : number) : number :=
  match a, b with
  | NaN, _ | _, NaN => NaN
  | Fin x, Fin y =>
      if bool_decide (y = 0%Qc)
      then (if bool_decide (x = 0%Qc) then NaN else signed_inf (negative x))
      else Fin (x / y)%Qc
  | Fin _, _ => Fin 0%Qc
  | PosInf, Fin y => signed_inf (negative y)
  | NegInf, Fin y => signed_inf (negb (negative y))
  | _, _ => NaN
  end.

(** [Math.floor]. *)
Definition floor (a : number) : number :=
  match a with
  | Fin q => ofZ (Qfloor q)
  | _ => a
  end.

(** [Math.round]: the nearest integer, halves rounded up. *)
Definition round (a : number) : number :=
  match a with
  | Fin q => ofZ (Qfloor (q + Q2Qc (1 # 2))%Qc)
  | _ => a
  end.

(** ToIntegerOrInfinity clamped at zero, as [Array.prototype.splice] reads a
    delete count: NaN and negatives give 0, fractions are truncated. The
    result is capped by the caller with the array length, so an infinite
    count is represented by [None]. *)
Definition to_count (a : number) : option nat :=
  match a with
  | NaN | NegInf => Some 0%nat
  | Fin q => Some (Z.to_nat (Qfloor q))
  | PosInf => None
  end.

(** The integer a number denotes, when it denotes one. *)
Definition as_integer (a : number) : option Z :=
  match a with
  | Fin q => if bool_decide (q = Q2Qc (inject_Z (Qfloor q))) then Some (Qfloor q) else None
  | _ => None
  end.

End Num.

Abbreviation ofZ := Num.ofZ.
Abbreviation ofQ := Num.ofQ.

(** ** Exceptions and results *)

Inductive ErrorClass : Type := ErrorC | TypeErrorC | RangeErrorC.

Record JSError : Type := mkError { err_class : ErrorClass; err_message : string }.

#[global] Instance ErrorClass_eq_dec : EqDecision ErrorClass.
Proof. solve_decision. Defined.
#[global] Instance JSError_eq_dec : EqDecision JSError.
Proof. solve_decision. Defined.

(** What evaluating an expression or running a method ends in. *)
Inductive outcome (A : Type) : Type :=
| Returned (a : A)
| Thrown (e : JSError).
Arguments Returned {A} a.
Arguments Thrown {A} e.

Definition returns {A} (o : outcome A) : bool :=
  match o with Returned _ => true | Thrown _ => false end.

Definition obind {A B} (o : outcome A) (k : A → outcome B) : outcome B :=
  match o with
  | Returned a => k a
  | Thrown e => Thrown e
  end.

#[global] Instance outcome_ret : MRet outcome := @Returned.
#[global] Instance outcome_bind : MBind outcome := λ A B k o, obind o k.

(** ** JavaScript values, as far as a parsed response needs them *)

(** [VNative] is a built-in method read off a prototype (the only one the
    player can reach is [String.prototype.link]); a parsed JSON document
    never contains one, nor [VUndefined]. *)
#[warnings="-register-all"] Inductive value : Type :=
| VUndefined
| VNull
| VBool (b : bool)
| VNumber (n : number)
| VString (s : string)
| VArray (elems : list value)
| VObject (props : list (string * value))
| VNative (name : string) (arity : nat).

#[global] Instance value_eq_dec : EqDecision value.
Proof.
  refine (fix go (x y : value) {struct x} : Decision (x = y) :=
    match x, y with
    | VUndefined, VUndefined | VNull, VNull => left _
    | VBool a, VBool b => cast_if (decide (a = b))
    | VNumber a, VNumber b => cast_if (decide (a = b))
    | VString a, VString b => cast_if (decide (a = b))
    | VArray l1, VArray l2 => cast_if (@list_eq_dec _ go l1 l2)
    | VObject l1, VObject l2 => cast_if (@list_eq_dec _ (@prod_eq_dec _ _ _ go) l1 l2)
    | VNative a n, VNative b m => cast_if_and (decide (a = b)) (decide (n = m))
    | _, _ => right _
    end); clear go; congruence.
Defined.

Module JS.

Definition nullish (v : value) : bool :=
  match v with VUndefined | VNull => true | _ => false end.

(** ToBoolean. *)
Definition truthy (v : value) : bool :=
  match v with
  | VUndefined | VNull => false
  | VBool b => b
  | VNumber n => Num.truthy n
  | VString s => negb (bool_decide (s = ""))
  | VArray _ | VObject _ | VNative _ _ => true
  end.

Definition isArray (v : value) : bool :=
  match v with VArray _ => true | _ => false end.

(** First binding of a key, as the parsed object holds one value per key. *)
Fixpoint own (props : list (string * value)) (k : string) : value :=
  match props with
  | [] => VUndefined
  | (k', v) :: rest => if bool_decide (k' = k) then v else own rest k
  end.

Definition describe (v : value) : string :=
  match v with VNull => "null" | _ => "undefined" end.

Definition cannot_read (v : value) (k : string) : JSError :=
  mkError TypeErrorC
    ("Cannot read properties of " +:+ describe v +:+ " (reading '" +:+ k +:+ "')").

Definition not_a_function (what : string) : JSError :=
  mkError TypeErrorC (what +:+ " is not a function").

(** [v.k] for the property names [Player.ts] reads ([tracks], [info],
    [pluginInfo], [name], [author], [artworkUrl], [url], [uri], [link],
    [selectedTrack], [duration], [length]): own properties, [length] of
    arrays, strings and functions, [name] of functions, and the one
    prototype member among those names, [String.prototype.link]. *)
Definition get (v : value) (k : string) : outcome value :=
  match v with
  | VUndefined | VNull => Thrown (cannot_read v k)
  | VBool _ | VNumber _ => Returned VUndefined
  | VString s =>
      if bool_decide (k = "length") then Returned (VNumber (ofZ (Z.of_nat (String.length s))))
      else if bool_decide (k = "link") then Returned (VNative "link" 1)
      else Returned VUndefined
  | VArray l =>
      if bool_decide (k = "length") then Returned (VNumber (ofZ (Z.of_nat (length l))))
      else Returned VUndefined
  | VObject props => Returned (own props k)
  | VNative name arity =>
      if bool_decide (k = "length") then Returned (VNumber (ofZ (Z.of_nat arity)))
      else if bool_decide (k = "name") then Returned (VString name)
      else Returned VUndefined
  end.

(** [v?.k]: undefined on null and undefined, never throws. *)
Definition get_opt (v : value) (k : string) : value :=
  if nullish v then VUndefined
  else match get v k with Returned x => x | Thrown _ => VUndefined end.

(** [a || b] with [b] evaluated only when [a] is falsy. *)
Definition or_else (a : value) (b : outcome value) : outcome value :=
  if truthy a then Returned a else b.

(** The services of the host this file does not define. *)
Class Host (T : Type) : Type := {
  (** Modelled from the spec: [utilManager.buildTrack(raw, requester)] is not
      in the sources; it is "a pure mapping, no failure path (missing fields
      map to null/0, never raises)", hence a total function. *)
  buildTrack : value → value → T;
  (** Number::toString for a number that is not an integer below 10^21. *)
  number_to_string : number → string;
  (** [a + b] when an operand is a string, an array, an object or a
      function: a string concatenation of their conversions. *)
  concat : value → value → value;
}.

Section Expressions.
Context {T : Type} `{!Host T}.

(** ToString of a number used as a property key. *)
Definition property_key (n : number) : string :=
  match Num.as_integer n with
  | Some z => if bool_decide (Z.abs z < 10 ^ 21) then pretty z else number_to_string n
  | None => number_to_string n
  end.

Definition char_at (s : string) (i : nat) : value :=
  match String.get i s with
  | Some c => VString (String c EmptyString)
  | None => VUndefined
  end.

(** [v[n]] for a number [n]. *)
Definition index (v : value) (n : number) : outcome value :=
  match v with
  | VUndefined | VNull => Thrown (cannot_read v (property_key n))
  | VArray l =>
      match Num.as_integer n with
      | Some z => if bool_decide (0 ≤ z) then Returned (default VUndefined (l !! Z.to_nat z))
                  else Returned VUndefined
      | None => Returned VUndefined
      end
  | VString s =>
      match Num.as_integer n with
      | Some z => if bool_decide (0 ≤ z) then Returned (char_at s (Z.to_nat z))
                  else Returned VUndefined
      | None => Returned VUndefined
      end
  | VObject props => Returned (own props (property_key n))
  | VBool _ | VNumber _ | VNative _ _ => Returned VUndefined
  end.

(** ToNumber on the primitives that are not strings. *)
Definition to_number (v : value) : option number :=
  match v with
  | VUndefined => Some NaN
  | VNull => Some (ofZ 0)
  | VBool b => Some (ofZ (if b then 1 else 0))
  | VNumber n => Some n
  | _ => None
  end.

(** [a + b]. *)
Definition plus (a b : value) : value :=
  match to_number a, to_number b with
  | Some x, Some y => VNumber (Num.add x y)
  | _, _ => concat a b
  end.
End Expressions.

End JS.

(** ** Search results (Player.search, after the request has been answered) *)

(** Modelled from the spec: the declaration of [LoadTypes] (Utils) is not in
    the sources; the load type is "one of a closed set:
    track/playlist/search/empty/error". *)
Inductive LoadTypes : Type :=
| LoadTrack | LoadPlaylist | LoadSearch | LoadEmpty | LoadError.

#[global] Instance LoadTypes_eq_dec : EqDecision LoadTypes.
Proof. solve_decision. Defined.

(** What [node.makeRequest] resolved to. *)
Record RawResponse : Type := {
  res_loadType : LoadTypes;
  res_data : value;
  res_pluginInfo : value;
}.

Record PlaylistInfo (T : Type) : Type := {
  pl_name : value;
  pl_author : value;
  pl_thumbnail : value;
  pl_uri : value;
  pl_selectedTrack : option T;
  pl_duration : value;
}.
Arguments pl_name {T} _.
Arguments pl_author {T} _.
Arguments pl_thumbnail {T} _.
Arguments pl_uri {T} _.
Arguments pl_selectedTrack {T} _.
Arguments pl_duration {T} _.

Record SearchResult (T : Type) : Type := {
  sr_loadType : LoadTypes;
  sr_exception : value;
  sr_pluginInfo : value;
  sr_playlist : option (PlaylistInfo T);
  sr_tracks : list T;
}.
Arguments sr_loadType {T} _.
Arguments sr_exception {T} _.
Arguments sr_pluginInfo {T} _.
Arguments sr_playlist {T} _.
Arguments sr_tracks {T} _.

Section Search.
Context {T : Type} `{!JS.Host T}.

(** [res.data.<obj>?.<key>]: the first access throws on a null [data]. *)
Definition data_field (data : value) (obj key : string) : outcome value :=
  o ← JS.get data obj; mret (JS.get_opt o key).

(** [res.data?.info?.selectedTrack]. *)
Definition selectedTrack_of (data : value) : value :=
  JS.get_opt (JS.get_opt data "info") "selectedTrack".

(** [typeof sel !== "number" || sel === -1]. *)
Definition no_selection (sel : value) : bool :=
  match sel with
  | VNumber n => Num.strict_eq n (ofZ (-1))
  | _ => true
  end.

(** [resTracks[sel]] once [sel] is known to be a number. *)
Definition selected (resTracks sel : value) : outcome value :=
  match sel with
  | VNumber n => JS.index resTracks n
  | _ => Returned VUndefined
  end.

(** [resTracks.length ? resTracks.reduce((acc, cur) => acc +
    (cur?.info?.duration || 0), 0) : 0]. *)
Definition total_duration (resTracks : value) : outcome value :=
  len ← JS.get resTracks "length";
  if JS.truthy len then
    match resTracks with
    | VArray l =>
        mret (fold_left
                (λ acc cur,
                  let d := JS.get_opt (JS.get_opt cur "info") "duration" in
                  JS.plus acc (if JS.truthy d then d else VNumber (ofZ 0)))
                l (VNumber (ofZ 0)))
    | _ => Thrown (JS.not_a_function "resTracks.reduce")
    end
  else mret (VNumber (ofZ 0)).

(** [resTracks.length ? resTracks.map(t => buildTrack(t, requestUser)) : []]. *)
Definition built_tracks (resTracks requestUser : value) : outcome (list T) :=
  len ← JS.get resTracks "length";
  if JS.truthy len then
    match resTracks with
    | VArray l => mret (map (λ t, JS.buildTrack t requestUser) l)
    | _ => Thrown (JS.not_a_function "resTracks.map")
    end
  else mret [].

(** The [playlist] member of the response literal, its six properties
    evaluated in the order they are written. *)
Definition playlist_of (data resTracks requestUser : value)
  : outcome (PlaylistInfo T) :=
  let sel := selectedTrack_of data in
  name ← (a ← data_field data "info" "name";
          JS.or_else a (b ← data_field data "pluginInfo" "name";
          JS.or_else b (mret VNull)));
  author ← (a ← data_field data "info" "author";
            JS.or_else a (b ← data_field data "pluginInfo" "author";
            JS.or_else b (mret VNull)));
  thumbnail ← (a ← data_field data "info" "artworkUrl";
               JS.or_else a (b ← data_field data "pluginInfo" "artworkUrl";
               JS.or_else b (
                 c ← (if no_selection sel then mret VNull
                      else t ← selected resTracks sel;
                           if JS.truthy t then
                             t1 ← selected resTracks sel;
                             JS.or_else (JS.get_opt (JS.get_opt t1 "info") "artworkUrl")
                               (t2 ← selected resTracks sel;
                                mret (JS.get_opt (JS.get_opt (JS.get_opt t2 "info")
                                                    "pluginInfo") "artworkUrl"))
                           else mret VNull);
                 JS.or_else c (mret VNull))));
  uri ← (a ← data_field data "info" "url";
         JS.or_else a (b ← data_field data "info" "uri";
         JS.or_else b (c ← data_field data "info" "link";
         JS.or_else c (d ← data_field data "pluginInfo" "url";
         JS.or_else d (e ← data_field data "pluginInfo" "uri";
         JS.or_else e (f ← data_field data "pluginInfo" "link";
         JS.or_else f (mret VNull)))))));
  selectedTrack ← (if no_selection sel then mret None
                   else t ← selected resTracks sel;
                        if JS.truthy t then
                          t1 ← selected resTracks sel;
                          mret (Some (JS.buildTrack t1 requestUser))
                        else mret None);
  duration ← total_duration resTracks;
  mret {| pl_name := name; pl_author := author; pl_thumbnail := thumbnail;
          pl_uri := uri; pl_selectedTrack := selectedTrack;
          pl_duration := duration |}.

(** [search], from the line that follows [await this.node.makeRequest(...)]:
    [res] is what the request resolved to. Building the request path (the
    source prefix and [encodeURIComponent]) comes before the await and
    reads neither [res] nor the player. *)
Definition search (res : RawResponse) (requestUser : value)
  : outcome (SearchResult T) :=
  let data := res_data res in
  let resTracks :=
    match res_loadType res with
    | LoadPlaylist => JS.get_opt data "tracks"
    | LoadTrack => VArray [data]
    | LoadSearch => if JS.isArray data then data else VArray [data]
    | _ => VArray []
    end in
  let exception :=
    if bool_decide (res_loadType res = LoadError) then data else VNull in
  let pluginInfo :=
    if JS.truthy (res_pluginInfo res) then res_pluginInfo res else VObject [] in
  playlist ← (if bool_decide (res_loadType res = LoadPlaylist)
              then p ← playlist_of data resTracks requestUser; mret (Some p)
              else mret None);
  tracks ← built_tracks resTracks requestUser;
  mret {| sr_loadType := res_loadType res; sr_exception := exception;
          sr_pluginInfo := pluginInfo; sr_playlist := playlist;
          sr_tracks := tracks |}.
End Search.

(** ** The collaborators of the player *)

(** Modelled from the spec: [Track] (Track.ts) is not in the sources; a track
    is an "immutable descriptor of a playable item" with an "encoded opaque
    payload", a duration and the [isSeekable] and [isStream] flags. Only the
    members [Player.ts] reads are kept. *)
Record TrackInfo : Type := {
  duration : number;
  isSeekable : bool;
  isStream : bool;
}.

Record Track : Type := {
  encodedTrack : string;
  info : TrackInfo;
}.

#[global] Instance TrackInfo_eq_dec : EqDecision TrackInfo.
Proof. solve_decision. Defined.
#[global] Instance Track_eq_dec : EqDecision Track.
Proof. solve_decision. Defined.

(** Modelled from the spec: [Queue] (Queue.ts) is not in the sources; it is
    an "ordered sequence of Track (insertion order = play order), one
    nullable current track slot, a size counter". *)
Record Queue : Type := {
  currentTrack : option Track;
  tracks : list Track;
}.

#[global] Instance Queue_eq_dec : EqDecision Queue.
Proof. solve_decision. Defined.

Module Queue.
(** Modelled from the spec: [new Queue({}, ...)], a queue with no current
    track and nothing pending. *)
Definition empty : Queue := {| currentTrack := None; tracks := [] |}.

(** Modelled from the spec: [size], the number of pending tracks ("fails
    QueueEmpty if the queue has no pending tracks", "fails SkipOutOfRange
    if skipTo exceeds queue size"). *)
Definition size (q : Queue) : nat := length (tracks q).

(** Modelled from the spec: [splice(start, deleteCount)] on the pending
    sequence, with the meaning of [Array.prototype.splice]: the
    [deleteCount] tracks from [start] on are removed ("removes the
    skipTo - 1 tracks preceding the target from the pending sequence").
    [None] is an infinite count. *)
Definition splice (start : nat) (deleteCount : option nat) (q : Queue) : Queue :=
  {| currentTrack := currentTrack q;
     tracks := take start (tracks q) ++
               match deleteCount with
               | Some n => drop (start + n) (tracks q)
               | None => []
               end |}.
End Queue.

(** The members of [Queue] whose behaviour the specification leaves open;
    the player is verified for every implementation of them. *)
Class QueueOps : Type := {
  (** [queue.isTrack(track)] *)
  isTrack : Queue → Track → bool;
  (** [queue.setCurrent(track)] *)
  setCurrent : Track → Queue → Queue;
  (** [queue._trackEnd(addBackToQueue)] *)
  _trackEnd : bool → Queue → Queue;
}.

(** Modelled from the spec: [LavalinkNode] (Node.ts) is not in the sources;
    "node objects additionally expose options.regions (sequence of region
    codes) for selector filtering". Both [options] and [regions] may be
    missing, as the optional chaining of the constructor allows. *)
Record NodeOptions : Type := { regions : option (list string) }.

Record LavalinkNode : Type := {
  node_id : string;
  node_options : option NodeOptions;
}.

#[global] Instance NodeOptions_eq_dec : EqDecision NodeOptions.
Proof. solve_decision. Defined.
#[global] Instance LavalinkNode_eq_dec : EqDecision LavalinkNode.
Proof. solve_decision. Defined.

(** Modelled from the spec: [LavalinkManager.options.playerOptions]
    (LavalinkManager.ts is not in the sources), the "optional
    volume-decrementer/apply-as-filter toggles" the player reads. *)
Record ManagerPlayerOptions : Type := {
  volumeDecrementer : option number;
  applyVolumeAsFilter : bool;
}.

(** Modelled from the spec: [LavalinkManager], whose node pool "exposes
    leastUsedNodes, a sequence of nodes pre-ordered by ascending load". *)
Record LavalinkManager : Type := {
  leastUsedNodes : list LavalinkNode;
  playerOptions : ManagerPlayerOptions;
}.

#[global] Instance ManagerPlayerOptions_eq_dec : EqDecision ManagerPlayerOptions.
Proof. solve_decision. Defined.
#[global] Instance LavalinkManager_eq_dec : EqDecision LavalinkManager.
Proof. solve_decision. Defined.

Inductive RepeatMode : Type := RepeatQueue | RepeatTrack | RepeatOff.

#[global] Instance RepeatMode_eq_dec : EqDecision RepeatMode.
Proof. solve_decision. Defined.

(** [PlayerOptions]; [selfDeaf], [selfMute], [node] and
    [instaUpdateFiltersFix] are read by no method modelled here. *)
Record PlayerOptions : Type := {
  opt_guildId : string;
  opt_voiceChannelId : string;
  opt_volume : option number;
  opt_vcRegion : option string;
  opt_textChannelId : option string;
  opt_applyVolumeAsFilter : option bool;
}.

#[global] Instance PlayerOptions_eq_dec : EqDecision PlayerOptions.
Proof. solve_decision. Defined.

(** An optional property of an options object: missing, present and
    [undefined], or present with a value. *)
Inductive field (A : Type) : Type :=
| Absent
| Undefined
| Given (a : A).
Arguments Absent {A}.
Arguments Undefined {A}.
Arguments Given {A} a.

#[global] Instance field_eq_dec `{EqDecision A} : EqDecision (field A).
Proof. solve_decision. Defined.

(** [{ k: d, ...options }]: a property of [options] that is present, even
    holding [undefined], replaces the default. *)
Definition spread {A} (d : field A) (o : field A) : field A :=
  match o with
  | Absent => d
  | _ => o
  end.

(** [PlayOptions]. *)
Record PlayOptions : Type := {
  po_track : field Track;
  po_encodedTrack : field (option string);
  po_identifier : field string;
  po_position : field number;
  po_endTime : field number;
  po_noReplace : field bool;
  po_paused : field bool;
  po_volume : field number;
  po_filters : field value;
  po_voice : field value;
}.

(** [play()] and [play({})]. *)
Definition no_options : PlayOptions :=
  {| po_track := Absent; po_encodedTrack := Absent; po_identifier := Absent;
     po_position := Absent; po_endTime := Absent; po_noReplace := Absent;
     po_paused := Absent; po_volume := Absent; po_filters := Absent;
     po_voice := Absent |}.

(** The [playerOptions] member of an [updatePlayer] argument. *)
Record PlayerUpdate : Type := {
  pu_encodedTrack : field (option string);
  pu_identifier : field string;
  pu_position : field number;
  pu_endTime : field number;
  pu_paused : field bool;
  pu_volume : field number;
  pu_filters : field value;
  pu_voice : field value;
}.

Definition no_update : PlayerUpdate :=
  {| pu_encodedTrack := Absent; pu_identifier := Absent; pu_position := Absent;
     pu_endTime := Absent; pu_paused := Absent; pu_volume := Absent;
     pu_filters := Absent; pu_voice := Absent |}.

(** One call of [node.updatePlayer]. *)
Record UpdateCall : Type := {
  uc_guildId : string;
  uc_noReplace : field bool;
  uc_playerOptions : PlayerUpdate;
}.

#[global] Instance PlayerUpdate_eq_dec : EqDecision PlayerUpdate.
Proof. solve_decision. Defined.
#[global] Instance UpdateCall_eq_dec : EqDecision UpdateCall.
Proof. solve_decision. Defined.

(** The measured round trip of a call, [performance.now() - now], given
    the calls made before it: every call is measured anew, so two calls
    with the same arguments need not take the same time. *)
Class Clock : Type := { elapsed : list UpdateCall → UpdateCall → number }.

(** ** The player *)

(** What the data object inherits from: [Object.prototype], as every
    object created by [{}] does, until an assignment to [__proto__] puts
    [null] or the object assigned in its place. *)
Inductive Prototype : Type :=
| ObjectPrototype
| NullPrototype
| AssignedPrototype (o : value).

#[global] Instance Prototype_eq_dec : EqDecision Prototype.
Proof. solve_decision. Defined.

(** The fields of the class. [wsPing], [createdTimeStamp], [connected],
    [voice] and [filterManager] are read and written by no method of
    [Player.ts] and are left out. [data] is the private side-channel
    object: its own properties, as a finite map since their enumeration
    order plays no part in what the methods compute, and its prototype
    [dataPrototype], which [this.data[key]] reads through and which an
    assignment to [__proto__] changes. *)
Record Player : Type := {
  options : PlayerOptions;
  manager : LavalinkManager;
  node : LavalinkNode;
  queue : Queue;
  guildId : string;
  voiceChannelId : option string;
  textChannelId : option string;
  playing : bool;
  paused : bool;
  repeatMode : RepeatMode;
  ping : number;
  volume : number;
  lavalinkVolume : number;
  position : number;
  data : gmap string value;
  dataPrototype : Prototype;
}.

#[global] Instance Player_eq_dec : EqDecision Player.
Proof. solve_decision. Defined.

Definition with_queue (q : Queue) (p : Player) : Player :=
  {| options := options p; manager := manager p; node := node p; queue := q;
     guildId := guildId p; voiceChannelId := voiceChannelId p;
     textChannelId := textChannelId p; playing := playing p; paused := paused p;
     repeatMode := repeatMode p; ping := ping p; volume := volume p;
     lavalinkVolume := lavalinkVolume p; position := position p; data := data p;
     dataPrototype := dataPrototype p |}.

Definition with_paused (b : bool) (p : Player) : Player :=
  {| options := options p; manager := manager p; node := node p; queue := queue p;
     guildId := guildId p; voiceChannelId := voiceChannelId p;
     textChannelId := textChannelId p; playing := playing p; paused := b;
     repeatMode := repeatMode p; ping := ping p; volume := volume p;
     lavalinkVolume := lavalinkVolume p; position := position p; data := data p;
     dataPrototype := dataPrototype p |}.

Definition with_repeatMode (m : RepeatMode) (p : Player) : Player :=
  {| options := options p; manager := manager p; node := node p; queue := queue p;
     guildId := guildId p; voiceChannelId := voiceChannelId p;
     textChannelId := textChannelId p; playing := playing p; paused := paused p;
     repeatMode := m; ping := ping p; volume := volume p;
     lavalinkVolume := lavalinkVolume p; position := position p; data := data p;
     dataPrototype := dataPrototype p |}.

Definition with_ping (n : number) (p : Player) : Player :=
  {| options := options p; manager := manager p; node := node p; queue := queue p;
     guildId := guildId p; voiceChannelId := voiceChannelId p;
     textChannelId := textChannelId p; playing := playing p; paused := paused p;
     repeatMode := repeatMode p; ping := n; volume := volume p;
     lavalinkVolume := lavalinkVolume p; position := position p; data := data p;
     dataPrototype := dataPrototype p |}.

Definition with_volume (n : number) (p : Player) : Player :=
  {| options := options p; manager := manager p; node := node p; queue := queue p;
     guildId := guildId p; voiceChannelId := voiceChannelId p;
     textChannelId := textChannelId p; playing := playing p; paused := paused p;
     repeatMode := repeatMode p; ping := ping p; volume := n;
     lavalinkVolume := lavalinkVolume p; position := position p; data := data p;
     dataPrototype := dataPrototype p |}.

Definition with_lavalinkVolume (n : number) (p : Player) : Player :=
  {| options := options p; manager := manager p; node := node p; queue := queue p;
     guildId := guildId p; voiceChannelId := voiceChannelId p;
     textChannelId := textChannelId p; playing := playing p; paused := paused p;
     repeatMode := repeatMode p; ping := ping p; volume := volume p;
     lavalinkVolume := n; position := position p; data := data p;
     dataPrototype := dataPrototype p |}.

Definition with_position (n : number) (p : Player) : Player :=
  {| options := options p; manager := manager p; node := node p; queue := queue p;
     guildId := guildId p; voiceChannelId := voiceChannelId p;
     textChannelId := textChannelId p; playing := playing p; paused := paused p;
     repeatMode := repeatMode p; ping := ping p; volume := volume p;
     lavalinkVolume := lavalinkVolume p; position := n; data := data p;
     dataPrototype := dataPrototype p |}.

Definition with_data (d : gmap string value) (p : Player) : Player :=
  {| options := options p; manager := manager p; node := node p; queue := queue p;
     guildId := guildId p; voiceChannelId := voiceChannelId p;
     textChannelId := textChannelId p; playing := playing p; paused := paused p;
     repeatMode := repeatMode p; ping := ping p; volume := volume p;
     lavalinkVolume := lavalinkVolume p; position := position p; data := d;
     dataPrototype := dataPrototype p |}.

Definition with_dataPrototype (proto : Prototype) (p : Player) : Player :=
  {| options := options p; manager := manager p; node := node p; queue := queue p;
     guildId := guildId p; voiceChannelId := voiceChannelId p;
     textChannelId := textChannelId p; playing := playing p; paused := paused p;
     repeatMode := repeatMode p; ping := ping p; volume := volume p;
     lavalinkVolume := lavalinkVolume p; position := position p; data := data p;
     dataPrototype := proto |}.

(** The player together with what it has sent so far: the arguments of
    [node.updatePlayer], oldest first, and the events given to
    [LavalinkManager.emit]. *)
Record World : Type := {
  self : Player;
  sent : list UpdateCall;
  emitted : list string;
}.

#[global] Instance World_eq_dec : EqDecision World.
Proof. solve_decision. Defined.

(** A method body: it ends by returning or throwing, and in both cases
    leaves the world as it was at that point. *)
Definition M (A : Type) : Type := World → outcome A * World.

#[global] Instance M_ret : MRet M := λ A a w, (Returned a, w).
#[global] Instance M_bind : MBind M := λ A B k m w,
  match m w with
  | (Returned a, w') => k a w'
  | (Thrown e, w') => (Thrown e, w')
  end.

Definition throw {A} (e : JSError) : M A := λ w, (Thrown e, w).

(** [this]. *)
Definition this : M Player := λ w, (Returned (self w), w).

(** An assignment to a field of [this]. *)
Definition assign (f : Player → Player) : M unit := λ w,
  (Returned (), {| self := f (self w); sent := sent w; emitted := emitted w |}).

Definition when (b : bool) (m : M unit) : M unit := if b then m else mret ().

(** [this.LavalinkManager.emit(event, this)]. *)
Definition emit (event : string) : M unit := λ w,
  (Returned (), {| self := self w; sent := sent w; emitted := emitted w ++ [event] |}).

(** ToBoolean on an optional number, as in [if (volumeDecrementer)]. *)
Definition configured (o : option number) : option number :=
  match o with
  | Some n => if Num.truthy n then Some n else None
  | None => None
  end.

(** The exceptions [Player.ts] throws, with the class and message of each
    [throw] statement. *)
Module Err.
Definition NoNode : JSError := mkError ErrorC
  "No available Node was found, please add a LavalinkNode to the Manager via Manager.NodeManager#createNode".
Definition NoTrack : JSError := mkError ErrorC
  "There is no Track in the Queue, nor provided in the PlayOptions".
Definition PlayPosition : JSError := mkError ErrorC
  "PlayerOption#position must be a positive number, less than track's duration".
Definition PlayVolume : JSError := mkError ErrorC
  "PlayerOption#volume must be a positive number".
Definition PlayEndTime : JSError := mkError ErrorC
  "PlayerOption#endTime must be a positive number, less than track's duration".
Definition PlayEndBeforePosition : JSError := mkError ErrorC
  "PlayerOption#endTime must be bigger than PlayerOption#position".
Definition VolumeNaN : JSError := mkError TypeErrorC "Volume must be a number.".
Definition AlreadyPaused : JSError := mkError ErrorC
  "Player is already paused - not able to pause.".
Definition NotPaused : JSError := mkError ErrorC
  "Player isn't paused - not able to resume.".
Definition PositionNaN : JSError := mkError RangeErrorC "Position must be a number.".
Definition NotSeekable : JSError := mkError RangeErrorC
  "Current Track is not seekable / a stream".
Definition BadRepeatMode : JSError := mkError RangeErrorC
  "Repeatmode must be either 'off', 'track', or 'queue'".
Definition SkipRange : JSError := mkError RangeErrorC
  "Can't skip more than the queue size".
End Err.

(** Modelled from the spec: the error taxonomy of its section 7, which the
    code does not declare (it throws [Error], [TypeError] and [RangeError]):
    "ConstructionError (no node available), ValidationError (bad
    numeric/enum argument to a state-machine operation), StateConflictError
    (pause-when-paused, resume-when-not-paused, skip-on-empty-queue,
    skip-out-of-range), PreconditionError (no voice channel configured,
    current track missing/not seekable)". *)
Inductive ErrorKind : Type :=
| ConstructionError | ValidationError | StateConflictError | PreconditionError.

#[global] Instance ErrorKind_eq_dec : EqDecision ErrorKind.
Proof. solve_decision. Defined.

Definition kind_of (e : JSError) : option ErrorKind :=
  if bool_decide (e = Err.NoNode) then Some ConstructionError
  else if bool_decide (e ∈ [Err.PlayPosition; Err.PlayVolume; Err.PlayEndTime;
                            Err.PlayEndBeforePosition; Err.VolumeNaN;
                            Err.PositionNaN; Err.BadRepeatMode])
  then Some ValidationError
  else if bool_decide (e ∈ [Err.AlreadyPaused; Err.NotPaused; Err.SkipRange])
  then Some StateConflictError
  else if bool_decide (e ∈ [Err.NoTrack; Err.NotSeekable])
  then Some PreconditionError
  else None.

(** [o] failed with an error of kind [k]. *)
Definition fails_with {A} (k : ErrorKind) (o : outcome A) : Prop :=
  match o with
  | Thrown e => kind_of e = Some k
  | Returned _ => False
  end.

(** *** Reading options *)

(** [Math.max(Math.min(v, hi), lo)], the clamp as the source writes it. *)
Definition max_min (v lo hi : number) : number := Num.max (Num.min v hi) lo.

(** The three [||]-joined tests of [play] on a number option: NaN, below
    zero, or (for a time) not below the duration. *)
Definition bad_time (f : field number) (d : number) : bool :=
  match f with
  | Given n => Num.isNaN n || (Num.lt n (ofZ 0) || Num.ge n d)
  | _ => false
  end.

Definition bad_volume (f : field number) : bool :=
  match f with
  | Given n => Num.isNaN n || Num.lt n (ofZ 0)
  | _ => false
  end.

Definition end_before_position (pos endTime : field number) : bool :=
  match pos, endTime with
  | Given p, Given e => Num.lt e p
  | _, _ => false
  end.

(** [o ?? d]. *)
Definition coalesce {A} (o : field A) (d : A) : A :=
  match o with Given a => a | _ => d end.

Definition with_po_volume (v : field number) (o : PlayOptions) : PlayOptions :=
  {| po_track := po_track o; po_encodedTrack := po_encodedTrack o;
     po_identifier := po_identifier o; po_position := po_position o;
     po_endTime := po_endTime o; po_noReplace := po_noReplace o;
     po_paused := po_paused o; po_volume := v; po_filters := po_filters o;
     po_voice := po_voice o |}.

(** [Math.floor(vol * 100) / 100]. *)
Definition floor2 (vol : number) : number :=
  Num.div (Num.floor (Num.mul vol (ofZ 100))) (ofZ 100).

(** [vol *= volumeDecrementer] under [if (volumeDecrementer)]. *)
Definition decrement (mgr : LavalinkManager) (vol : number) : number :=
  match configured (volumeDecrementer (playerOptions mgr)) with
  | Some d => Num.mul vol d
  | None => vol
  end.

(** [Math.round(ms / 10) / 100]. *)
Definition ping_of (ms : number) : number :=
  Num.div (Num.round (Num.div ms (ofZ 10))) (ofZ 100).

(** [Object.keys(data)]. *)
Definition keys (d : gmap string value) : list string := (map_to_list d).*1.

Definition startsWith (prefix s : string) : bool := String.prefix prefix s.

Definition parse_repeatMode (s : string) : option RepeatMode :=
  if bool_decide (s = "off") then Some RepeatOff
  else if bool_decide (s = "track") then Some RepeatTrack
  else if bool_decide (s = "queue") then Some RepeatQueue
  else None.

(** *** Choosing the node *)

(** The filter predicate of the constructor:
    [options.vcRegion ? v.options?.regions?.includes(options.vcRegion) : true]. *)
Definition eligible (vcRegion : option string) (v : LavalinkNode) : bool :=
  match vcRegion with
  | Some r =>
      if bool_decide (r = "") then true
      else match node_options v with
           | Some o => match regions o with
                       | Some rs => bool_decide (r ∈ rs)
                       | None => false
                       end
           | None => false
           end
  | None => true
  end.

(** [leastUsedNodes.filter(...)[0] || leastUsedNodes[0] || null]. *)
Definition select_node (mgr : LavalinkManager) (vcRegion : option string)
  : option LavalinkNode :=
  match head (List.filter (eligible vcRegion) (leastUsedNodes mgr)) with
  | Some n => Some n
  | None => head (leastUsedNodes mgr)
  end.

(** *** The data object: own properties and what lies behind them *)


(** The index that the property name [key] is in an array of [n] elements. *)
Definition index_of_key (key : string) (n : nat) : option nat :=
  List.find (λ i, bool_decide (pretty i = key)) (seq 0 n).

(** The own property [key] of an object given as a value: a member of a
    parsed object, an element or the [length] of an array, the [name] or
    the [length] of a built-in function. *)
Definition own_property (o : value) (key : string) : option value :=
  match o with
  | VObject props =>
      if bool_decide (key ∈ props.*1) then Some (JS.own props key) else None
  | VArray l =>
      if bool_decide (key = "length") then Some (VNumber (ofZ (Z.of_nat (length l))))
      else i ← index_of_key key (length l); l !! i
  | VNative name arity =>
      if bool_decide (key = "name") then Some (VString name)
      else if bool_decide (key = "length") then Some (VNumber (ofZ (Z.of_nat arity)))
      else None
  | _ => None
  end.

(** The own properties of a built-in function, [name] and [length], are
    not writable; those of a parsed object and of an array are. *)
Definition read_only (o : value) : bool :=
  match o with
  | VNative _ _ => true
  | _ => false
  end.

(** [caller] and [arguments] of [Function.prototype] are accessors that
    throw, whatever they are called on. *)
Definition restricted (o : value) (key : string) : bool :=
  match o with
  | VNative _ _ => bool_decide (key = "caller") || bool_decide (key = "arguments")
  | _ => false
  end.

Definition ReadOnlyProperty (key : string) : JSError :=
  mkError TypeErrorC
    ("Cannot assign to read only property '" +:+ key +:+ "' of object '#<Object>'").

Definition RestrictedProperty : JSError :=
  mkError TypeErrorC
    "'caller', 'callee', and 'arguments' properties may not be accessed on strict mode functions or the arguments objects for calls to them".

(** Where the value of [this.data[key] = value] ends up. The body of a
    class is strict code, so an assignment that cannot be made throws. *)
Inductive Assignment : Type :=
| StoresOwn
| CallsProtoSetter
| Rejected (e : JSError).

(** An assignment to a key that is no own property of the data object
    goes up its prototype chain. It makes a new own property when it finds
    nothing or a writable data property there; the accessor [__proto__] of
    [Object.prototype], which every object of the runtime inherits, takes
    the value instead; a property that is not writable, or an accessor
    that throws, rejects it. *)
Definition assignment (proto : Prototype) (key : string) : Assignment :=
  match proto with
  | NullPrototype => StoresOwn
  | ObjectPrototype =>
      if bool_decide (key = "__proto__") then CallsProtoSetter else StoresOwn
  | AssignedPrototype o =>
      match own_property o key with
      | Some _ => if read_only o then Rejected (ReadOnlyProperty key) else StoresOwn
      | None =>
          if restricted o key then Rejected RestrictedProperty
          else if bool_decide (key = "__proto__") then CallsProtoSetter
          else StoresOwn
      end
  end.

(** [this.data[key] = value]: an own property is written where it is. *)
Definition target (p : Player) (key : string) : Assignment :=
  match data p !! key with
  | Some _ => StoresOwn
  | None => assignment (dataPrototype p) key
  end.
Arguments target : simpl never.

(** The setter of [Object.prototype.__proto__]: an object or [null]
    becomes the prototype, any other value is ignored. *)
Definition proto_setter (v : value) (proto : Prototype) : Prototype :=
  match v with
  | VNull => NullPrototype
  | VObject _ | VArray _ | VNative _ _ => AssignedPrototype v
  | _ => proto
  end.

(** The keys none of the special cases of an assignment is about. *)
Definition ordinary (key : string) : bool :=
  negb (bool_decide (key ∈ ["__proto__"; "name"; "length"; "caller"; "arguments"])).

(** The enumerable own properties of an object given as a value. *)
Definition enumerable_keys (o : value) : list string :=
  match o with
  | VObject props => remove_dups props.*1
  | VArray l => pretty <$> seq 0 (length l)
  | _ => []
  end.

(** The keys [for (const key in this.data)] visits: the own ones, then the
    enumerable ones of the prototype that no own one shadows. The members
    of the built-in prototypes are not enumerable. *)
Definition for_in (p : Player) : list string :=
  keys (data p) ++
  List.filter (λ key, bool_decide (key ∉ keys (data p)))
    match dataPrototype p with
    | AssignedPrototype o => enumerable_keys o
    | _ => []
    end.

(** The data members of the built-in prototypes, each a built-in function
    under its name; the runtime defines them. *)
Class Builtins : Type := {
  object_prototype : list (string * value);
  array_prototype : list (string * value);
  function_prototype : list (string * value);
}.

Definition member (table : list (string * value)) (key : string) : option value :=
  if bool_decide (key ∈ table.*1) then Some (JS.own table key) else None.

(** What the built-in prototypes behind an object given as a value hold
    for [key]: [Array.prototype] and then [Object.prototype] for an array,
    [Function.prototype] and then [Object.prototype] for a function,
    [Object.prototype] for any other object. *)
Definition builtin_member `{!Builtins} (o : value) (key : string) : option value :=
  match o with
  | VArray _ =>
      match member array_prototype key with
      | Some v => Some v
      | None => member object_prototype key
      end
  | VNative _ _ =>
      match member function_prototype key with
      | Some v => Some v
      | None => member object_prototype key
      end
  | _ => member object_prototype key
  end.

(** [this.data[key]] for a key that is no own property of the data
    object. The getter of [__proto__] returns the prototype. *)
Definition inherited `{!Builtins} (proto : Prototype) (key : string) : outcome value :=
  match proto with
  | NullPrototype => Returned VUndefined
  | ObjectPrototype =>
      if bool_decide (key = "__proto__") then Returned (VObject object_prototype)
      else Returned (default VUndefined (member object_prototype key))
  | AssignedPrototype o =>
      match own_property o key with
      | Some v => Returned v
      | None =>
          if restricted o key then Thrown RestrictedProperty
          else if bool_decide (key = "__proto__") then Returned o
          else Returned (default VUndefined (builtin_member o key))
      end
  end.

(** *** The methods *)

Section Methods.
Context `{!QueueOps} `{!Clock} `{!Builtins}.

(** [this.data[key] = value]. *)
Definition set (key : string) (v : value) : M unit :=
  p ← this;
  match target p key with
  | StoresOwn => assign (λ p, with_data (<[key := v]> (data p)) p)
  | CallsProtoSetter => assign (λ p, with_dataPrototype (proto_setter v (dataPrototype p)) p)
  | Rejected e => throw e
  end.

(** [this.data[key]]. *)
Definition get (key : string) : M value :=
  p ← this;
  match data p !! key with
  | Some v => mret v
  | None =>
      match inherited (dataPrototype p) key with
      | Returned v => mret v
      | Thrown e => throw e
      end
  end.

(** [clearData]: the keys to keep are computed first, then every key the
    loop visits that is not among them is deleted; deleting a key that is
    no own property does nothing. *)
Definition clearData : M unit :=
  assign (λ p,
    let toKeep := List.filter (startsWith "internal_") (keys (data p)) in
    with_data
      (foldl (λ d key, if bool_decide (key ∈ toKeep) then d else delete key d)
             (data p) (for_in p))
      p).

(** [getAllData]: the entries outside the reserved prefix. *)
Definition getAllData : M (gmap string value) :=
  p ← this;
  mret (list_to_map
          (List.filter (λ v, negb (startsWith "internal_" v.1)) (map_to_list (data p)))).

(** [await this.node.updatePlayer({ guildId, noReplace, playerOptions })]. *)
Definition updatePlayer (noReplace : field bool) (po : PlayerUpdate) : M UpdateCall :=
  λ w,
    let call := {| uc_guildId := guildId (self w); uc_noReplace := noReplace;
                   uc_playerOptions := po |} in
    (Returned call, {| self := self w; sent := sent w ++ [call]; emitted := emitted w |}).

(** The three lines around every call of the node: take the time, await the
    update, store the round trip in [ping]. *)
Definition dispatch (noReplace : field bool) (po : PlayerUpdate) : M unit :=
  λ w,
    (call ← updatePlayer noReplace po;
     assign (with_ping (ping_of (elapsed (sent w) call)))) w.

Definition setVolume (volume0 : number) (ignoreVolumeDecrementer : bool) : M unit :=
  if Num.isNaN volume0 then throw Err.VolumeNaN
  else
    assign (with_volume (max_min volume0 (ofZ 0) (ofZ 500)));;
    p ← this;
    let vol := volume p in
    let vol := if ignoreVolumeDecrementer then vol else decrement (manager p) vol in
    assign (with_lavalinkVolume (floor2 vol));;
    if applyVolumeAsFilter (playerOptions (manager p))
    then dispatch Absent
           {| pu_encodedTrack := Absent; pu_identifier := Absent; pu_position := Absent;
              pu_endTime := Absent; pu_paused := Absent; pu_volume := Absent;
              pu_filters := Given (VObject [("volume", VNumber (Num.div vol (ofZ 100)))]);
              pu_voice := Absent |}
    else dispatch Absent
           {| pu_encodedTrack := Absent; pu_identifier := Absent; pu_position := Absent;
              pu_endTime := Absent; pu_paused := Absent; pu_volume := Given vol;
              pu_filters := Absent; pu_voice := Absent |}.

(** The [if (typeof options?.volume === "number" && !isNaN(options?.volume))]
    block of [play]; it returns [options] with its [volume] overwritten. *)
Definition play_volume (options : PlayOptions) : M PlayOptions :=
  match po_volume options with
  | Given v =>
      if Num.isNaN v then mret options
      else
        assign (with_volume (max_min v (ofZ 0) (ofZ 500)));;
        p ← this;
        let vol := decrement (manager p) (volume p) in
        assign (with_lavalinkVolume (floor2 vol));;
        mret (with_po_volume (Given vol) options)
  | _ => mret options
  end.

(** [{ encodedTrack, volume, position: 0, ...options }] without [track]
    and [noReplace]. *)
Definition finalOptions_of (track : Track) (p : Player) (options : PlayOptions)
  : PlayerUpdate :=
  {| pu_encodedTrack := spread (Given (Some (encodedTrack track))) (po_encodedTrack options);
     pu_identifier := po_identifier options;
     pu_position := spread (Given (ofZ 0)) (po_position options);
     pu_endTime := po_endTime options;
     pu_paused := po_paused options;
     pu_volume := spread (Given (lavalinkVolume p)) (po_volume options);
     pu_filters := po_filters options;
     pu_voice := po_voice options |}.

(** The two statements of [play] that settle the current track. *)
Definition resolve_track (options : PlayOptions) : M (option Track) :=
  p ← this;
  match po_track options with
  | Given t => when (isTrack (queue p) t) (assign (with_queue (setCurrent t (queue p))))
  | _ => mret ()
  end;;
  p ← this;
  when (negb (bool_decide (is_Some (currentTrack (queue p))))
        && negb (bool_decide (Queue.size (queue p) = 0%nat)))
       (assign (with_queue (_trackEnd (bool_decide (repeatMode p = RepeatQueue)) (queue p))));;
  p ← this;
  mret (currentTrack (queue p)).

Definition play (options : PlayOptions) : M unit :=
  current ← resolve_track options;
  match current with
  | None => throw Err.NoTrack
  | Some track =>
      options' ← play_volume options;
      p ← this;
      set "lastposition" (VNumber (position p));;
      p ← this;
      let finalOptions := finalOptions_of track p options' in
      let d := duration (info track) in
      if bad_time (pu_position finalOptions) d then throw Err.PlayPosition
      else if bad_volume (pu_volume finalOptions) then throw Err.PlayVolume
      else if bad_time (pu_endTime finalOptions) d then throw Err.PlayEndTime
      else if end_before_position (pu_position finalOptions) (pu_endTime finalOptions)
      then throw Err.PlayEndBeforePosition
      else dispatch (Given (coalesce (po_noReplace options) false)) finalOptions
  end.

Definition pause : M unit :=
  p ← this;
  if paused p && negb (playing p) then throw Err.AlreadyPaused
  else
    assign (with_paused true);;
    dispatch Absent
      {| pu_encodedTrack := Absent; pu_identifier := Absent; pu_position := Absent;
         pu_endTime := Absent; pu_paused := Given true; pu_volume := Absent;
         pu_filters := Absent; pu_voice := Absent |}.

Definition resume : M unit :=
  p ← this;
  if negb (paused p) then throw Err.NotPaused
  else
    assign (with_paused false);;
    dispatch Absent
      {| pu_encodedTrack := Absent; pu_identifier := Absent; pu_position := Absent;
         pu_endTime := Absent; pu_paused := Given false; pu_volume := Absent;
         pu_filters := Absent; pu_voice := Absent |}.

Definition seek (position0 : number) : M unit :=
  p ← this;
  match currentTrack (queue p) with
  | None => mret ()
  | Some track =>
      if Num.isNaN position0 then throw Err.PositionNaN
      else if negb (isSeekable (info track)) || isStream (info track)
      then throw Err.NotSeekable
      else
        let d := duration (info track) in
        let pos := if Num.lt position0 (ofZ 0) || Num.gt position0 d
                   then max_min position0 (ofZ 0) d
                   else position0 in
        assign (with_position pos);;
        p ← this;
        set "internal_lastposition" (VNumber (position p));;
        dispatch Absent
          {| pu_encodedTrack := Absent; pu_identifier := Absent;
             pu_position := Given pos; pu_endTime := Absent; pu_paused := Absent;
             pu_volume := Absent; pu_filters := Absent; pu_voice := Absent |}
  end.

Definition setRepeatMode (mode : string) : M unit :=
  match parse_repeatMode mode with
  | None => throw Err.BadRepeatMode
  | Some m => assign (with_repeatMode m)
  end.

(** [skip(skipTo = 0)]; a call without argument is [skip (ofZ 0)]. *)
Definition skip (skipTo : number) : M bool :=
  p ← this;
  if bool_decide (Queue.size (queue p) = 0%nat) then throw Err.SkipRange
  else
    (if Num.gt skipTo (ofZ 1) then
       if Num.gt skipTo (ofZ (Z.of_nat (Queue.size (queue p)))) then throw Err.SkipRange
       else assign (with_queue
                      (Queue.splice 0 (Num.to_count (Num.sub skipTo (ofZ 1))) (queue p)))
     else mret ());;
    dispatch Absent
      {| pu_encodedTrack := Given None; pu_identifier := Absent; pu_position := Absent;
         pu_endTime := Absent; pu_paused := Absent; pu_volume := Absent;
         pu_filters := Absent; pu_voice := Absent |};;
    mret true.

(** The field initialisers of the class and the assignments of the
    constructor that come before the node is chosen. *)
Definition initial (opts : PlayerOptions) (mgr : LavalinkManager) (n : LavalinkNode)
  : Player :=
  {| options := opts; manager := mgr; node := n; queue := Queue.empty;
     guildId := opt_guildId opts;
     voiceChannelId := Some (opt_voiceChannelId opts);
     textChannelId := match opt_textChannelId opts with
                      | Some s => if bool_decide (s = "") then None else Some s
                      | None => None
                      end;
     playing := false; paused := false; repeatMode := RepeatOff;
     ping := ofZ 0; volume := ofZ 100; lavalinkVolume := ofZ 100;
     position := ofZ 0; data := ∅; dataPrototype := ObjectPrototype |}.

(** What the constructor does once the node is known. [setVolume] is
    called without [await]: its assignments and its call of the node happen
    before the constructor returns, and the model lets the awaited update
    (and with it the assignment to [ping]) complete there too. *)
Definition constructor_body (opts : PlayerOptions) : M unit :=
  p ← this;
  match configured (volumeDecrementer (playerOptions (manager p))) with
  | Some d => assign (with_volume (Num.mul (volume p) d))
  | None => mret ()
  end;;
  emit "playerCreate";;
  match opt_volume opts with
  | Some v => if Num.isNaN v then mret () else setVolume v false
  | None => mret ()
  end.

(** [new Player(options, LavalinkManager)]: the player, or the exception
    that leaves none. *)
Definition constructor (opts : PlayerOptions) (mgr : LavalinkManager) : outcome World :=
  match select_node mgr (opt_vcRegion opts) with
  | None => Thrown Err.NoNode
  | Some n =>
      match constructor_body opts
              {| self := initial opts mgr n; sent := []; emitted := [] |} with
      | (Returned _, w) => Returned w
      | (Thrown e, _) => Thrown e
      end
  end.
End Methods.

(** ** Notions the properties are stated with *)

(** The clamp of [v] into the interval from [lo] to [hi]. *)
Definition clamp (v lo hi : number) : number :=
  if Num.lt v lo then lo else if Num.lt hi v then hi else v.

(** [floor(volume * decrementer * 100) / 100]. *)
Definition decremented_volume (volume0 d : number) : number :=
  Num.div (Num.floor (Num.mul (Num.mul volume0 d) (ofZ 100))) (ofZ 100).

(** The relation between [volume] and [lavalinkVolume] under a configured
    decrementer and a configuration that does not send the volume as a
    filter. *)
Definition volume_coherent (p : Player) : Prop :=
  ∀ d, configured (volumeDecrementer (playerOptions (manager p))) = Some d →
       applyVolumeAsFilter (playerOptions (manager p)) = false →
       lavalinkVolume p = decremented_volume (volume p) d.

(** What the relation between the two volumes depends on. *)
Definition volume_state (p : Player) : LavalinkManager * number * number :=
  (manager p, volume p, lavalinkVolume p).

(** The decrementer, when there is one, is a finite number that is not
    negative. *)
Definition decrementer_scales_down (mgr : LavalinkManager) : Prop :=
  match volumeDecrementer (playerOptions mgr) with
  | Some (Fin q) => (0 ≤ q)%Qc
  | Some _ => False
  | None => True
  end.

(** Node [v] advertises region [r]. *)
Definition advertises (r : string) (v : LavalinkNode) : Prop :=
  ∃ o rs, node_options v = Some o ∧ regions o = Some rs ∧ r ∈ rs.

(** [position] when given, 0 otherwise: the position [play] validates. *)
Definition effective_position (options : PlayOptions) : field number :=
  match po_position options with
  | Absent => Given (ofZ 0)
  | o => o
  end.

(** The update that carries only [field := v]. *)
Definition only_position (pos : number) : PlayerUpdate :=
  {| pu_encodedTrack := Absent; pu_identifier := Absent; pu_position := Given pos;
     pu_endTime := Absent; pu_paused := Absent; pu_volume := Absent;
     pu_filters := Absent; pu_voice := Absent |}.

Definition only_paused (b : bool) : PlayerUpdate :=
  {| pu_encodedTrack := Absent; pu_identifier := Absent; pu_position := Absent;
     pu_endTime := Absent; pu_paused := Given b; pu_volume := Absent;
     pu_filters := Absent; pu_voice := Absent |}.

Definition only_encodedTrack_null : PlayerUpdate :=
  {| pu_encodedTrack := Given None; pu_identifier := Absent; pu_position := Absent;
     pu_endTime := Absent; pu_paused := Absent; pu_volume := Absent;
     pu_filters := Absent; pu_voice := Absent |}.

Definition only_volume (vol : number) : PlayerUpdate :=
  {| pu_encodedTrack := Absent; pu_identifier := Absent; pu_position := Absent;
     pu_endTime := Absent; pu_paused := Absent; pu_volume := Given vol;
     pu_filters := Absent; pu_voice := Absent |}.

Definition only_filter_volume (vol : number) : PlayerUpdate :=
  {| pu_encodedTrack := Absent; pu_identifier := Absent; pu_position := Absent;
     pu_endTime := Absent; pu_paused := Absent; pu_volume := Absent;
     pu_filters := Given (VObject [("volume", VNumber vol)]); pu_voice := Absent |}.

(** A call of the node made by the player of [w] without [noReplace]. *)
Definition call_of (w : World) (po : PlayerUpdate) : UpdateCall :=
  {| uc_guildId := guildId (self w); uc_noReplace := Absent; uc_playerOptions := po |}.

(** The volume [play] validates passes: a number given as [volume] is
    clamped and scaled by a decrementer that scales down; an [undefined]
    one is not looked at; without one it is the player's [lavalinkVolume]. *)
Definition volume_passes (p : Player) (o : field number) : Prop :=
  match o with
  | Given v => Num.isNaN v = false ∧ decrementer_scales_down (manager p)
  | Undefined => True
  | Absent => Num.le (ofZ 0) (lavalinkVolume p) = true
  end.

(** The end time, when one is given, lies in the interval from [lo]
    (included) to [d] (excluded). *)
Definition endTime_passes (lo d : number) (o : field number) : Prop :=
  match o with
  | Given e => Num.le lo e = true ∧ Num.lt e d = true
  | _ => True
  end.

(** The player and the options as [play] has them when its validation
    starts: after the volume block and after [lastposition] is stored. *)
Definition prepared (options : PlayOptions) (p : Player) : Player * PlayOptions :=
  let '(p1, options1) :=
    match po_volume options with
    | Given v =>
        if Num.isNaN v then (p, options)
        else
          let vol := decrement (manager p) (max_min v (ofZ 0) (ofZ 500)) in
          (with_lavalinkVolume (floor2 vol) (with_volume (max_min v (ofZ 0) (ofZ 500)) p),
           with_po_volume (Given vol) options)
    | _ => (p, options)
    end in
  (with_data (<["lastposition" := VNumber (position p1)]> (data p1)) p1, options1).

(** The world after a call [call] of the node. *)
Definition dispatched `{!Clock} (w : World) (p : Player) (call : UpdateCall) : World :=
  {| self := with_ping (ping_of (elapsed (sent w) call)) p;
     sent := sent w ++ [call]; emitted := emitted w |}.

(** The four checks of [play], joined. *)
Definition invalid (fo : PlayerUpdate) (d : number) : bool :=
  bad_time (pu_position fo) d || bad_volume (pu_volume fo)
  || bad_time (pu_endTime fo) d
  || end_before_position (pu_position fo) (pu_endTime fo).

(** [o] threw a [TypeError]. *)
Definition throws_TypeError {A} (o : outcome A) : Prop :=
  ∃ e, o = Thrown e ∧ err_class e = TypeErrorC.

(** [o] returned, or threw a [TypeError]. *)
Definition at_worst_TypeError {A} (o : outcome A) : Prop :=
  match o with
  | Returned _ => True
  | Thrown e => err_class e = TypeErrorC
  end.

(** What [skip] leaves behind when it completes with [pending] waiting. *)
Definition skipped `{!Clock} (w : World) (pending : list Track) : World :=
  {| self := with_ping (ping_of (elapsed (sent w) (call_of w only_encodedTrack_null)))
               (with_queue {| currentTrack := currentTrack (queue (self w));
                              tracks := pending |} (self w));
     sent := sent w ++ [call_of w only_encodedTrack_null];
     emitted := emitted w |}.

(** The operations a caller can apply to a constructed player. *)
Inductive Op : Type :=
| OpPlay (options : PlayOptions)
| OpSetVolume (v : number) (ignoreVolumeDecrementer : bool)
| OpPause
| OpResume
| OpSeek (p : number)
| OpSetRepeatMode (mode : string)
| OpSkip (skipTo : number)
| OpSet (key : string) (v : value)
| OpClearData.

Definition run `{!QueueOps} `{!Clock} (op : Op) : World → World :=
  λ w,
    match op with
    | OpPlay o => (play o w).2
    | OpSetVolume v i => (setVolume v i w).2
    | OpPause => (pause w).2
    | OpResume => (resume w).2
    | OpSeek p => (seek p w).2
    | OpSetRepeatMode m => (setRepeatMode m w).2
    | OpSkip n => (skip n w).2
    | OpSet k v => (set k v w).2
    | OpClearData => (clearData w).2
    end.

Definition overrides_decrementer (op : Op) : bool :=
  match op with
  | OpSetVolume _ true => true
  | _ => false
  end.

(** The worlds in which the volume was last set through the decrementer:
    a player constructed with a starting volume, the world after a
    [setVolume(v)] or after a [play] that carries a volume, and every world
    an operation other than [setVolume(v, true)] leads to from there. *)
Inductive settled `{!QueueOps} `{!Clock} : World → Prop :=
| settled_constructed (opts : PlayerOptions) (mgr : LavalinkManager) (v : number) (w : World) :
    opt_volume opts = Some v → Num.isNaN v = false →
    constructor opts mgr = Returned w → settled w
| settled_setVolume (w : World) (v : number) :
    Num.isNaN v = false → settled (setVolume v false w).2
| settled_play (w w0 : World) (options : PlayOptions) (track : Track) (v : number) :
    resolve_track options w = (Returned (Some track), w0) →
    po_volume options = Given v → Num.isNaN v = false →
    settled (play options w).2
| settled_step (w : World) (op : Op) :
    overrides_decrementer op = false → settled w → settled (run op w).

(** ** Sample collaborators and data *)

Module Sample.
(** Modelled from the spec: a queue whose [isTrack] is membership in the
    pending sequence ("if options.track is a member of the queue's track
    set, it becomes currentTrack"), whose [setCurrent] fills the current
    slot and whose [_trackEnd] advances to the first pending track,
    putting the finished one back at the end under queue repeat. *)
Definition queue_ops : QueueOps :=
  {| isTrack q t := bool_decide (t ∈ tracks q);
     setCurrent t q := {| currentTrack := Some t; tracks := tracks q |};
     _trackEnd again q :=
       let pending := match currentTrack q with
                      | Some t => if again then tracks q ++ [t] else tracks q
                      | None => tracks q
                      end in
       {| currentTrack := head pending; tracks := tail pending |} |}.

(** A node that answers every update after 42 ms. *)
Definition clock : Clock := {| elapsed _ _ := ofZ 42 |}.

(** A host whose built track is the raw track, whose number printer and
    string concatenation are placeholders. *)
Definition host : JS.Host value :=
  {| JS.buildTrack raw _ := raw;
     JS.number_to_string _ := "NaN";
     JS.concat _ _ := VString "" |}.

Definition song (ms : Z) : Track :=
  {| encodedTrack := "QAAAjQIAJVJpY2sgQXN0bGV5";
     info := {| duration := ofZ ms; isSeekable := true; isStream := false |} |}.

Definition node_of (id : string) (rs : list string) : LavalinkNode :=
  {| node_id := id; node_options := Some {| regions := Some rs |} |}.

Definition manager_of (pool : list LavalinkNode) (dec : option number) (asFilter : bool)
  : LavalinkManager :=
  {| leastUsedNodes := pool;
     playerOptions := {| volumeDecrementer := dec; applyVolumeAsFilter := asFilter |} |}.

Definition options_of (vol : option number) (region : option string) : PlayerOptions :=
  {| opt_guildId := "guild"; opt_voiceChannelId := "voice"; opt_volume := vol;
     opt_vcRegion := region; opt_textChannelId := None;
     opt_applyVolumeAsFilter := None |}.

Definition pool : list LavalinkNode :=
  [node_of "us-1" ["us"]; node_of "eu-1" ["eu"; "de"]; node_of "eu-2" ["eu"]].

(** A player on the first node of [pool], with the given decrementer and
    filter switch, both volumes at their initial 100, [current] in the
    current slot and [pending] waiting. *)
Definition world (dec : option number) (asFilter : bool)
    (current : option Track) (pending : list Track) : World :=
  {| self := with_queue {| currentTrack := current; tracks := pending |}
               (initial (options_of None None) (manager_of pool dec asFilter)
                        (node_of "us-1" ["us"]));
     sent := []; emitted := ["playerCreate"] |}.

(** [playing] is a public field that no method of [Player.ts] assigns: the
    node's event handlers do. This sets it from outside, as they do. *)
Definition with_playing (b : bool) (w : World) : World :=
  {| self := {| options := options (self w); manager := manager (self w);
                node := node (self w); queue := queue (self w);
                guildId := guildId (self w);
                voiceChannelId := voiceChannelId (self w);
                textChannelId := textChannelId (self w); playing := b;
                paused := paused (self w); repeatMode := repeatMode (self w);
                ping := ping (self w); volume := volume (self w);
                lavalinkVolume := lavalinkVolume (self w);
                position := position (self w); data := data (self w);
                dataPrototype := dataPrototype (self w) |};
     sent := sent w; emitted := emitted w |}.

(** [play({position, volume, endTime})]. *)
Definition play_with (pos vol endT : field number) : PlayOptions :=
  {| po_track := Absent; po_encodedTrack := Absent; po_identifier := Absent;
     po_position := pos; po_endTime := endT; po_noReplace := Absent;
     po_paused := Absent; po_volume := vol; po_filters := Absent;
     po_voice := Absent |}.
End Sample.

(** ** The voice gateway and the end of a player (connect, disconnect, destroy) *)

(** The two members of [PlayerOptions] that only [connect] reads. *)
Record VoiceFlags : Type := {
  selfDeaf : field bool;
  selfMute : field bool;
}.

(** The [d] member of the op 4 message given to [sendToShard]. *)
Record VoiceStateUpdate : Type := {
  vs_guild_id : string;
  vs_channel_id : option string;
  vs_self_mute : bool;
  vs_self_deaf : bool;
}.

#[global] Instance VoiceFlags_eq_dec : EqDecision VoiceFlags.
Proof. solve_decision. Defined.

#[global] Instance VoiceStateUpdate_eq_dec : EqDecision VoiceStateUpdate.
Proof. solve_decision. Defined.

(** What the three methods do outside the player. *)
Inductive Effect : Type :=
| GatewayMessage (d : VoiceStateUpdate)
| NodeDestroyPlayer (guild : string)
| ManagerEmit (event : string)
| ManagerDeletePlayer (guild : string).

#[global] Instance Effect_eq_dec : EqDecision Effect.
Proof. solve_decision. Defined.

(** The player with the rest of what these three methods touch, as one
    log in the order of the calls: the op 4 messages given to
    [LavalinkManager.options.sendToShard], the guilds given to
    [node.destroyPlayer] and to [LavalinkManager.deletePlayer], and the
    events given to [LavalinkManager.emit], oldest first. A rejected
    promise of a collaborator is not modelled. *)
Record Session : Type := {
  world : World;
  flags : VoiceFlags;
  effects : list Effect;
}.

#[global] Instance Session_eq_dec : EqDecision Session.
Proof. solve_decision. Defined.


(** The guilds given to [node.destroyPlayer], oldest first. *)
Definition destroyed (s : Session) : list string :=
  omap (λ e, match e with NodeDestroyPlayer g => Some g | _ => None end) (effects s).

(** The guilds given to [LavalinkManager.deletePlayer], oldest first. *)
Definition deleted (s : Session) : list string :=
  omap (λ e, match e with ManagerDeletePlayer g => Some g | _ => None end) (effects s).


Module Lifecycle.















End Lifecycle.

(** ** The request of a search (Player.search, before the request is sent) *)

(** The [query] argument: typed as an object, tested for being a string. *)
Inductive SearchQuery : Type :=
| QueryString (q : string)
| QueryObject (q : string) (source : option string).

(** What the request needs from outside [Player.ts]: the table
    [DEFAULT_SOURCES] (LavalinkManagerStatics, not in the sources), the
    manager's [defaultSearchPlatform] and [encodeURIComponent]. *)
Class SearchEnv : Type := {
  DEFAULT_SOURCES : gmap string string;
  defaultSearchPlatform : string;
  encodeURIComponent : string → string;
}.

Section Request.
Context `{!SearchEnv}.

(** [typeof query === "string" ? query : query.query]. *)
Definition query_text (query : SearchQuery) : string :=
  match query with
  | QueryString q => q
  | QueryObject q _ => q
  end.

(** [query.source]: a string has no such property. *)
Definition query_source (query : SearchQuery) : option string :=
  match query with
  | QueryString _ => None
  | QueryObject _ s => s
  end.

(** [DEFAULT_SOURCES[query.source ?? d] ?? query.source ?? d], with [d] the
    default platform. *)
Definition source_of (query : SearchQuery) : string :=
  let asked := default defaultSearchPlatform (query_source query) in
  match DEFAULT_SOURCES !! asked with
  | Some s => s
  | None => asked
  end.

(** [/^https?:\/\//.test(s)]. *)
Definition is_http_url (s : string) : bool :=
  String.prefix "http://" s || String.prefix "https://" s.

(** The path given to [node.makeRequest]. *)
Definition request_path (query : SearchQuery) : string :=
  let _query := query_text query in
  let srcSearch := if negb (is_http_url _query) then source_of query +:+ ":" else "" in
  "/loadtracks?identifier=" +:+ srcSearch +:+ encodeURIComponent _query.
End Request.

(** ** The Bandcamp search (structures/CustomSearches/BandCampSearch.js) *)

(** The argument of [buildUnresolvedTrack]. *)
Record UnresolvedQuery : Type := {
  uq_uri : value;
  uq_artworkUrl : value;
  uq_author : value;
  uq_title : value;
  uq_identifier : value;
}.

#[global] Instance UnresolvedQuery_eq_dec : EqDecision UnresolvedQuery.
Proof. solve_decision. Defined.

(** What the search needs from outside: [utils.buildUnresolvedTrack], which
    may throw, and the conversion to a string of a template literal for a
    value that is not a string. *)
Class BandcampHost (U : Type) : Type := {
  buildUnresolvedTrack : UnresolvedQuery → outcome U;
  template_string : value → string;
}.

(** The envelope [bandCampSearch] returns: [loadType] is always ["search"],
    [pluginInfo] always [{}], [playlist] always [null]; [tracks] is [None]
    when it is [undefined]. *)
Record BandcampResult (U : Type) : Type := {
  bc_exception : option JSError;
  bc_tracks : option (list U);
}.
Arguments bc_exception {U} _.
Arguments bc_tracks {U} _.

Module Bandcamp.

(** The text after the last ["/"]: [s.split("/").reverse()[0]]. *)
Fixpoint last_segment_from (acc s : string) : string :=
  match s with
  | EmptyString => acc
  | String c rest =>
      if bool_decide (String c EmptyString = "/") then last_segment_from "" rest
      else last_segment_from (acc +:+ String c EmptyString) rest
  end.

Definition last_segment (s : string) : string := last_segment_from "" s.

(** [!!x && typeof x === "object" && "type" in x && x.type === "t"]: an array
    is an object too, and has no [type]. *)
Definition is_track_item (x : value) : bool :=
  JS.truthy x &&
  match x with
  | VObject props =>
      bool_decide (("type" : string) ∈ props.*1) &&
      bool_decide (JS.own props "type" = VString "t")
  | _ => false
  end.

Section Search.
Context {U : Type} `{!BandcampHost U}.

(** [`${v}`]. *)
Definition template (v : value) : string :=
  match v with
  | VString s => s
  | _ => template_string v
  end.

(** [item.id ? `${item.id}` : item.url?.split("/").reverse()[0]]. *)
Definition identifier_of (item : value) : outcome value :=
  id ← JS.get item "id";
  if JS.truthy id then mret (VString (template id))
  else
    url ← JS.get item "url";
    match url with
    | VUndefined | VNull => mret VUndefined
    | VString s => mret (VString (last_segment s))
    | _ => Thrown (JS.not_a_function "item.url?.split")
    end.

(** The callback of [map]. *)
Definition unresolved (item : value) : outcome U :=
  url ← JS.get item "url";
  uri ← JS.or_else url (JS.get item "uri");
  img ← JS.get item "img";
  band ← JS.get item "band_name";
  name ← JS.get item "name";
  identifier ← identifier_of item;
  buildUnresolvedTrack
    {| uq_uri := uri; uq_artworkUrl := img; uq_author := band; uq_title := name;
       uq_identifier := identifier |}.

(** [Array.prototype.map] with a callback that may throw. *)
Fixpoint map_throwing {A B} (f : A → outcome B) (l : list A) : outcome (list B) :=
  match l with
  | [] => mret []
  | x :: rest => y ← f x; ys ← map_throwing f rest; mret (y :: ys)
  end.

(** [json?.results?.filter(...).map?.(...)]. *)
Definition tracks_of (json : value) : outcome (option (list U)) :=
  if JS.nullish json then mret None
  else
    results ← JS.get json "results";
    if JS.nullish results then mret None
    else
      match results with
      | VArray l => ts ← map_throwing unresolved (List.filter is_track_item l); mret (Some ts)
      | _ => Thrown (JS.not_a_function "json?.results?.filter")
      end.

(** [bandCampSearch], from what [fetch(...)] and [data.json()] ended in:
    the parsed body, or the exception one of them threw. *)
Definition bandCampSearch (fetched : outcome value) : BandcampResult U :=
  match json ← fetched; tracks_of json with
  | Returned tracks => {| bc_exception := None; bc_tracks := tracks |}
  | Thrown e => {| bc_exception := Some e; bc_tracks := Some [] |}
  end.
End Search.

End Bandcamp.

(** ** Notions for the further properties *)

(** The fields no method of the state machine assigns: who the player is,
    where it is connected, and whether the node says it is playing. *)
Definition identity (p : Player)
  : PlayerOptions * LavalinkManager * LavalinkNode * string
    * option string * option string * bool :=
  (options p, manager p, node p, guildId p, voiceChannelId p, textChannelId p,
   playing p).

(** What an operation did to the world, for the frame properties. *)
Definition framed `{!QueueOps} `{!Clock} (op : Op) (w : World) (calls : list UpdateCall)
  : Prop :=
  sent (run op w) = sent w ++ calls ∧
  emitted (run op w) = emitted w ∧
  identity (self (run op w)) = identity (self w).



(** The first truthy value of a precedence chain, [null] when there is none:
    [a || b || ... || null]. *)
Definition first_truthy (candidates : list value) : value :=
  default VNull (List.find JS.truthy candidates).

(** [data.<obj>?.<key>] for a [data] that is an object. *)
Definition member_of (props : list (string * value)) (obj key : string) : value :=
  JS.get_opt (JS.own props obj) key.


(** A playlist response. *)
Definition playlist_response (data pluginInfo : value) : RawResponse :=
  {| res_loadType := LoadPlaylist; res_data := data; res_pluginInfo := pluginInfo |}.

(** No ["/"] occurs in [s]. *)
Fixpoint no_slash (s : string) : bool :=
  match s with
  | EmptyString => true
  | String c rest => negb (bool_decide (String c EmptyString = "/")) && no_slash rest
  end.

(** A Bandcamp item whose identifier cannot be computed: it has no truthy
    [id], and its [url] is there but is not a string. *)
Definition url_not_splittable (item : value) : bool :=
  match item with
  | VObject props =>
      negb (JS.truthy (JS.own props "id")) &&
      match JS.own props "url" with
      | VUndefined | VNull | VString _ => false
      | _ => true
      end
  | _ => false
  end.

(** ** A sample runtime, for the examples *)

Module SampleRuntime.
End SampleRuntime.

(** ** A sample search environment and Bandcamp host, for the examples *)

Module SampleSearch.
(** A table with two aliases, a default platform, and an
    [encodeURIComponent] that is only right on text without reserved
    characters. *)
Definition env : SearchEnv :=
  {| DEFAULT_SOURCES := <["youtube" := "ytsearch"]> (<["soundcloud" := "scsearch"]> ∅);
     defaultSearchPlatform := "youtube";
     encodeURIComponent := λ s, s |}.

(** A builder that hands back its query. *)
Definition bandcamp : BandcampHost UnresolvedQuery :=
  {| buildUnresolvedTrack := λ q, Returned q;
     template_string := λ _, "" |}.

Definition track_item (id url name : value) : value :=
  VObject [("type", VString "t"); ("id", id); ("url", url); ("name", name)].

End SampleSearch.

(** * Properties *)

(** ** Numbers *)

Section NumberFacts.
Implicit Types a b c : number.

Lemma lt_irrefl a : Num.lt a a = false.
Proof.
  destruct a as [| |q|]; simpl; try done.
  apply bool_decide_eq_false. intros H. by apply (Qclt_not_eq q q).
Qed.

Lemma le_not_lt a b : Num.le a b = true → Num.lt b a = false.
Proof.
  destruct a as [| |x|], b as [| |y|]; simpl; try done.
  intros H%bool_decide_eq_true.
  by apply bool_decide_eq_false, Qcle_not_lt.
Qed.

Lemma lt_le_trans a b c : Num.lt a b = true → Num.le b c = true → Num.lt a c = true.
Proof.
  destruct a as [| |x|], b as [| |y|], c as [| |z|]; simpl; try done.
  intros H1%bool_decide_eq_true H2%bool_decide_eq_true.
  apply bool_decide_eq_true. by eapply Qclt_le_trans.
Qed.

Lemma lt_asym a b : Num.lt a b = true → Num.lt b a = false.
Proof.
  destruct a as [| |x|], b as [| |y|]; simpl; try done.
  intros H%bool_decide_eq_true.
  apply bool_decide_eq_false. intros H'.
  apply (Qclt_not_eq x x); [|done]. by eapply Qclt_trans.
Qed.

(** Below the lower bound: the source's [max(min(v, hi), lo)] is [lo]. *)
Lemma max_min_below v lo hi :
  Num.lt v lo = true → Num.le lo hi = true → max_min v lo hi = lo.
Proof.
  intros Hv Hlh. unfold max_min.
  assert (Num.lt hi v = false) as Hhv.
  { apply lt_asym. by eapply lt_le_trans. }
  assert (Num.min v hi = v) as ->.
  { unfold Num.min. rewrite Hhv. destruct v, lo, hi; simpl in *; done. }
  unfold Num.max. rewrite Hv. destruct v, lo; simpl in *; done.
Qed.

(** Above the upper bound it is [hi]. *)
Lemma max_min_above v lo hi :
  Num.lt hi v = true → Num.le lo hi = true → max_min v lo hi = hi.
Proof.
  intros Hv Hlh. unfold max_min.
  assert (Num.min v hi = hi) as ->.
  { unfold Num.min. rewrite Hv. destruct v, lo, hi; simpl in *; done. }
  unfold Num.max. rewrite (le_not_lt _ _ Hlh).
  destruct lo, hi; simpl in *; done.
Qed.

(** Inside the bounds it is [v]. *)
Lemma max_min_inside v lo hi :
  Num.isNaN v = false → Num.isNaN lo = false → Num.isNaN hi = false →
  Num.lt v lo = false → Num.lt hi v = false → max_min v lo hi = v.
Proof.
  intros Hv Hlo Hhi H1 H2. unfold max_min.
  assert (Num.min v hi = v) as ->.
  { unfold Num.min. rewrite H2. destruct v, hi; simpl in *; done. }
  unfold Num.max. rewrite H1. destruct v, lo; simpl in *; done.
Qed.

(** The source's clamp agrees with [clamp] on a non-empty interval. *)
Lemma max_min_clamp v lo hi :
  Num.isNaN v = false → Num.le lo hi = true → max_min v lo hi = clamp v lo hi.
Proof.
  intros Hv Hlh. unfold clamp.
  assert (Num.isNaN lo = false) by (destruct lo, hi; done).
  assert (Num.isNaN hi = false) by (destruct lo, hi; done).
  destruct (Num.lt v lo) eqn:H1; [by apply max_min_below|].
  destruct (Num.lt hi v) eqn:H2; [by apply max_min_above|].
  by apply max_min_inside.
Qed.


Lemma Qc_ofZ_le (x y : Z) : (Q2Qc (inject_Z x) ≤ Q2Qc (inject_Z y))%Qc ↔ x ≤ y.
Proof. unfold Qcle. simpl. rewrite !Qred_correct. by rewrite <-Zle_Qle. Qed.

Lemma Qfloor_ofZ (z : Z) : Qfloor (Q2Qc (inject_Z z)) = z.
Proof. simpl. rewrite (Qfloor_comp _ _ (Qred_correct _)). apply Qfloor_Z. Qed.


Lemma ofZ_le (x y : Z) : Num.le (ofZ x) (ofZ y) = bool_decide (x ≤ y).
Proof. simpl. apply bool_decide_ext, Qc_ofZ_le. Qed.



Lemma le_lt_trans a b c : Num.le a b = true → Num.lt b c = true → Num.lt a c = true.
Proof.
  destruct a as [| |x|], b as [| |y|], c as [| |z|]; simpl; try done.
  intros H1%bool_decide_eq_true H2%bool_decide_eq_true.
  apply bool_decide_eq_true. by eapply Qcle_lt_trans.
Qed.

Lemma lt_not_le a b : Num.lt a b = true → Num.le b a = false.
Proof.
  destruct a as [| |x|], b as [| |y|]; simpl; try done.
  intros H%bool_decide_eq_true.
  by apply bool_decide_eq_false, Qclt_not_le.
Qed.

Lemma le_zero_Fin a : Num.le (ofZ 0) a = true → Num.isNaN a = false ∧ Num.lt a (ofZ 0) = false.
Proof. intros H. split; [by destruct a|]. by apply le_not_lt. Qed.

(** A volume clamped into 0..500 is a finite number that is not negative. *)
Lemma clamped_volume v :
  Num.isNaN v = false → ∃ q, max_min v (ofZ 0) (ofZ 500) = Fin q ∧ (0 ≤ q)%Qc.
Proof.
  intros Hv. rewrite max_min_clamp by done. unfold clamp.
  destruct (Num.lt v (ofZ 0)) eqn:H0.
  { eexists. split; [done|]. apply Qcle_refl. }
  destruct (Num.lt (ofZ 500) v) eqn:H5.
  { eexists. split; [done|]. by apply Qc_ofZ_le. }
  destruct v as [| |q|]; try done.
  exists q. split; [done|]. simpl in H0. apply bool_decide_eq_false in H0.
  by apply Qcnot_lt_le.
Qed.
End NumberFacts.

(** ** The side-channel data *)

Ltac unfold_monad :=
  unfold mbind, M_bind, mret, M_ret, this, assign, throw, when, emit in *;
  cbn beta iota delta [fst snd self sent emitted] in *.

(** An assignment to an ordinary key is stored, whatever the data object
    inherits from. *)
Lemma target_ordinary (p : Player) (key : string) :
  ordinary key = true → target p key = StoresOwn.
Proof.
  intros Hk. apply negb_true_iff, bool_decide_eq_false in Hk.
  assert (key ≠ "__proto__" ∧ key ≠ "name" ∧ key ≠ "length" ∧
          key ≠ "caller" ∧ key ≠ "arguments") as (Hproto & Hname & Hlen & Hcal & Harg).
  { repeat split; intros ->; apply Hk; rewrite !elem_of_cons; auto 10. }
  unfold target. destruct (data p !! key); [done|].
  unfold assignment.
  destruct (dataPrototype p) as [| |o]; [by rewrite bool_decide_eq_false_2|done|].
  destruct o as [| | | | |l|props|name arity]; simpl;
    rewrite ?(bool_decide_eq_false_2 (key = "__proto__")),
            ?(bool_decide_eq_false_2 (key = "name")),
            ?(bool_decide_eq_false_2 (key = "length")),
            ?(bool_decide_eq_false_2 (key = "caller")),
            ?(bool_decide_eq_false_2 (key = "arguments")) by done;
    try done.
  - by destruct (index_of_key key (length l) ≫= _);
      rewrite ?(bool_decide_eq_false_2 (key = "__proto__")) by done.
  - by destruct (bool_decide (key ∈ props.*1));
      rewrite ?(bool_decide_eq_false_2 (key = "__proto__")) by done.
Qed.

Section DataBag.
Context `{!QueueOps} `{!Clock}.

Lemma elem_of_keys (d : gmap string value) (k : string) :
  k ∈ keys d ↔ is_Some (d !! k).
Proof.
  unfold keys. rewrite list_elem_of_fmap. split.
  - intros [[k' v] [-> Hin]]. apply elem_of_map_to_list in Hin. by exists v.
  - intros [v Hv]. exists (k, v). split; [done|]. by apply elem_of_map_to_list.
Qed.

Lemma elem_of_toKeep (ks : list string) (k : string) :
  k ∈ List.filter (startsWith "internal_") ks ↔
  k ∈ ks ∧ startsWith "internal_" k = true.
Proof. rewrite !list_elem_of_In. apply filter_In. Qed.

(** The deleting loop, over any list of keys and any set of keys to keep. *)
Lemma lookup_delete_loop (toKeep ks : list string) (d : gmap string value) (k : string) :
  foldl (λ d key, if bool_decide (key ∈ toKeep) then d else delete key d) d ks !! k
  = if bool_decide (k ∈ ks ∧ k ∉ toKeep) then None else d !! k.
Proof.
  revert d. induction ks as [|key ks IH]; intros d; simpl.
  - done.
  - rewrite IH. clear IH.
    assert (k ∈ key :: ks ↔ k = key ∨ k ∈ ks) as Hcons by apply elem_of_cons.
    destruct (decide (k ∈ toKeep)) as [Hk|Hk].
    { rewrite (bool_decide_eq_false_2 (k ∈ ks ∧ k ∉ toKeep)) by tauto.
      rewrite (bool_decide_eq_false_2 (k ∈ key :: ks ∧ k ∉ toKeep)) by tauto.
      case_bool_decide; [done|]. rewrite lookup_delete_ne; [done|]. by intros ->. }
    destruct (decide (k ∈ ks)) as [Hks|Hks].
    { rewrite (bool_decide_eq_true_2 (k ∈ ks ∧ k ∉ toKeep)) by tauto.
      by rewrite (bool_decide_eq_true_2 (k ∈ key :: ks ∧ k ∉ toKeep)) by tauto. }
    rewrite (bool_decide_eq_false_2 (k ∈ ks ∧ k ∉ toKeep)) by tauto.
    destruct (decide (k = key)) as [->|Hne].
    { rewrite (bool_decide_eq_false_2 (key ∈ toKeep)) by done.
      rewrite (bool_decide_eq_true_2 (key ∈ key :: ks ∧ key ∉ toKeep)) by tauto.
      apply lookup_delete_eq. }
    rewrite (bool_decide_eq_false_2 (k ∈ key :: ks ∧ k ∉ toKeep)) by tauto.
    case_bool_decide; [done|]. by rewrite lookup_delete_ne.
Qed.

Lemma clearData_lookup (w : World) (k : string) :
  data (self (clearData w).2) !! k
  = if startsWith "internal_" k then data (self w) !! k else None.
Proof.
  unfold clearData. unfold_monad. simpl.
  rewrite lookup_delete_loop. unfold for_in.
  destruct (data (self w) !! k) as [v|] eqn:Hk.
  - assert (k ∈ keys (data (self w))) as Hin by (apply elem_of_keys; by exists v).
    destruct (startsWith "internal_" k) eqn:Hpre.
    + rewrite bool_decide_eq_false_2; [done|].
      intros [_ Hnot]. by apply Hnot, elem_of_toKeep.
    + rewrite bool_decide_eq_true_2; [done|]. split.
      * apply elem_of_app. by left.
      * intros [_ ?]%elem_of_toKeep. congruence.
  - case_bool_decide; by destruct (startsWith "internal_" k).
Qed.

(** C9. [clearData] always returns, changes nothing but [data], and in
    [data] removes exactly the entries whose key does not start with
    [internal_]: such a key is unbound afterwards, and a key with the
    prefix is bound to the value it had. *)
Theorem clearData_keeps_exactly_reserved (w : World) (k : string) :
  (clearData w).1 = Returned () ∧
  data (self (clearData w).2) !! k
    = (if startsWith "internal_" k then data (self w) !! k else None) ∧
  (clearData w).2
    = {| self := with_data (data (self (clearData w).2)) (self w);
         sent := sent w; emitted := emitted w |}.
Proof.
  split; [done|]. split; [|done]. apply clearData_lookup.
Qed.
End DataBag.

(** ** seek *)

Section Seek.
Context `{!QueueOps} `{!Clock}.

(** C6. With a current track that is seekable, not a stream and of
    duration [d] (a number that is not negative), [seek p] for a number
    [p] (not NaN) never throws: it stores [clamp p 0 d] in [position],
    stores the same value under the reserved key [internal_lastposition],
    and sends the node one update whose only member is that position. *)
Theorem seek_clamps_position (w : World) (track : Track) (p : number) :
  currentTrack (queue (self w)) = Some track →
  isSeekable (info track) = true →
  isStream (info track) = false →
  Num.le (ofZ 0) (duration (info track)) = true →
  Num.isNaN p = false →
  let pos := clamp p (ofZ 0) (duration (info track)) in
  (seek p w).1 = Returned () ∧
  position (self (seek p w).2) = pos ∧
  data (self (seek p w).2) !! "internal_lastposition" = Some (VNumber pos) ∧
  startsWith "internal_" "internal_lastposition" = true ∧
  sent (seek p w).2 = sent w ++ [call_of w (only_position pos)].
Proof.
  intros Hcur Hseek Hstream Hd Hp pos.
  assert (seek p w =
          (Returned (),
           {| self := with_ping (ping_of (elapsed (sent w) (call_of w (only_position pos))))
                        (with_data (<["internal_lastposition" := VNumber pos]> (data (self w)))
                           (with_position pos (self w)));
              sent := sent w ++ [call_of w (only_position pos)];
              emitted := emitted w |})) as ->.
  { unfold seek, set, dispatch, updatePlayer. unfold_monad.
    rewrite Hcur, Hp, Hseek, Hstream. simpl.
    assert ((if Num.lt p (ofZ 0) || Num.gt p (duration (info track))
             then max_min p (ofZ 0) (duration (info track)) else p) = pos) as ->.
    { unfold pos. rewrite max_min_clamp by done. unfold clamp, Num.gt.
      destruct (Num.lt p (ofZ 0)); [done|].
      by destruct (Num.lt (duration (info track)) p). }
    by rewrite target_ordinary. }
  simpl. repeat split; try done. apply lookup_insert_eq.
Qed.
End Seek.

(** C6, the scenario of the specification: on a track of 180000 ms,
    [seek(-50)] stores 0 and [seek(200000)] stores 180000. *)
Lemma seek_clamps_position_witness :
  let w := Sample.world None false (Some (Sample.song 180000)) [] in
  position (self (@seek Sample.clock (ofZ (-50)) w).2) = ofZ 0 ∧
  position (self (@seek Sample.clock (ofZ 200000) w).2) = ofZ 180000.
Proof.
  intros w.
  pose proof (@seek_clamps_position Sample.clock w (Sample.song 180000) (ofZ (-50))
                eq_refl eq_refl eq_refl eq_refl eq_refl) as (_ & H1 & _).
  pose proof (@seek_clamps_position Sample.clock w (Sample.song 180000) (ofZ 200000)
                eq_refl eq_refl eq_refl eq_refl eq_refl) as (_ & H2 & _).
  split; [exact H1 | exact H2].
Defined.

(** ** skip *)

Section Skip.
Context `{!QueueOps} `{!Clock}.





(** A [skipTo] above 1 that is not an integer: [splice] truncates the
    count, so [floor(skipTo - 1)] tracks go. *)
Lemma skip_forward_truncates (w : World) (q : Qc) (n : nat) :
  Num.gt (Fin q) (ofZ 1) = true →
  Num.gt (Fin q) (ofZ (Z.of_nat (Queue.size (queue (self w))))) = false →
  Num.to_count (Num.sub (Fin q) (ofZ 1)) = Some n →
  skip (Fin q) w = (Returned true, skipped w (drop n (tracks (queue (self w))))).
Proof.
  intros H1 Hsize Hn. unfold skip, dispatch, updatePlayer. unfold_monad.
  rewrite H1, Hsize, Hn.
  case_bool_decide as Hempty; [|done].
  exfalso. unfold Num.gt in *. rewrite Hempty in Hsize.
  change (Z.of_nat 0) with 0 in Hsize.
  assert (Num.lt (ofZ 0) (Fin q) = true) as Hpos; [|by rewrite Hpos in Hsize].
  eapply le_lt_trans; [|exact H1]. rewrite ofZ_le. by apply bool_decide_eq_true.
Qed.

End Skip.


(** ** Choosing the node *)

Section NodeSelection.
Context `{!QueueOps} `{!Clock}.

Lemma eligible_advertises (r : string) (v : LavalinkNode) :
  r ≠ "" → eligible (Some r) v = true ↔ advertises r v.
Proof.
  intros Hr. unfold eligible, advertises.
  rewrite bool_decide_eq_false_2 by done.
  destruct (node_options v) as [[[rs|]]|]; simpl.
  - rewrite bool_decide_eq_true. split; [by eauto|].
    by intros (o & rs' & [= <-] & [= <-] & ?).
  - split; [done|]. by intros (o & rs' & [= <-] & [= ] & ?).
  - split; [done|]. by intros (o & rs' & [= ] & _).
Qed.

Lemma filter_skips_prefix {A} (f : A → bool) (pre : list A) (x : A) (post : list A) :
  Forall (λ y, f y = false) pre → f x = true →
  head (List.filter f (pre ++ x :: post)) = Some x.
Proof.
  intros Hpre Hx. induction Hpre as [|y pre Hy _ IH]; simpl.
  - by rewrite Hx.
  - by rewrite Hy.
Qed.

Lemma filter_none {A} (f : A → bool) (l : list A) :
  Forall (λ y, f y = false) l → List.filter f l = [].
Proof.
  induction 1 as [|y l Hy _ IH]; simpl; [done|]. by rewrite Hy.
Qed.

(** The constructor never throws once a node is chosen, and keeps it. *)
Lemma constructor_with_node (opts : PlayerOptions) (mgr : LavalinkManager)
    (n : LavalinkNode) :
  select_node mgr (opt_vcRegion opts) = Some n →
  ∃ w, constructor opts mgr = Returned w ∧ node (self w) = n.
Proof.
  intros Hsel. unfold constructor. rewrite Hsel.
  unfold constructor_body, setVolume, dispatch, updatePlayer. unfold_monad. simpl.
  destruct (configured _); destruct (opt_volume opts) as [v|]; simpl;
    try destruct (Num.isNaN v); simpl;
    try destruct (applyVolumeAsFilter _); simpl; eauto.
Qed.

(** C8. Construction takes, with a region hint, the first node of the
    pool (which is in ascending order of load) that advertises the
    region; when no node advertises it, the first node of the pool, the
    least used one (as it does without a hint); and when the pool is
    empty it throws the construction error and there is no player. *)
Theorem constructor_selects_node (opts : PlayerOptions) (mgr : LavalinkManager) :
  let pool := leastUsedNodes mgr in
  (∀ r before n after,
     opt_vcRegion opts = Some r → r ≠ "" →
     pool = before ++ n :: after →
     Forall (λ v, ¬ advertises r v) before → advertises r n →
     ∃ w, constructor opts mgr = Returned w ∧ node (self w) = n) ∧
  (∀ r n rest,
     opt_vcRegion opts = Some r →
     pool = n :: rest →
     Forall (λ v, ¬ advertises r v) pool →
     ∃ w, constructor opts mgr = Returned w ∧ node (self w) = n) ∧
  (∀ n rest,
     opt_vcRegion opts = None →
     pool = n :: rest →
     ∃ w, constructor opts mgr = Returned w ∧ node (self w) = n) ∧
  (pool = [] →
     constructor opts mgr = Thrown Err.NoNode ∧
     fails_with ConstructionError (constructor opts mgr)).
Proof.
  intros pool. split; [|split; [|split]].
  - intros r before n after Hr Hne Hpool Hbefore Hn.
    apply constructor_with_node. unfold select_node.
    fold pool. rewrite Hr, Hpool, filter_skips_prefix; [done| |].
    + eapply Forall_impl; [exact Hbefore|]. intros v Hv. simpl in Hv.
      destruct (eligible (Some r) v) eqn:He; [|done].
      exfalso. by apply Hv, eligible_advertises.
    + by apply eligible_advertises.
  - intros r n rest Hr Hpool Hnone.
    apply constructor_with_node. unfold select_node. fold pool. rewrite Hr.
    destruct (decide (r = "")) as [->|Hne].
    + rewrite Hpool. simpl. done.
    + rewrite filter_none; [by rewrite Hpool|].
      eapply Forall_impl; [exact Hnone|]. intros v Hv. simpl in Hv.
      destruct (eligible (Some r) v) eqn:He; [|done].
      exfalso. by apply Hv, eligible_advertises.
  - intros n rest Hr Hpool.
    apply constructor_with_node. unfold select_node. fold pool.
    by rewrite Hr, Hpool.
  - intros Hpool. unfold constructor, select_node. fold pool. rewrite Hpool.
    simpl. done.
Qed.
End NodeSelection.

Lemma constructor_selects_node_witness :
  let mgr := Sample.manager_of Sample.pool None false in
  (∃ w, @constructor Sample.clock (Sample.options_of None (Some "eu")) mgr = Returned w ∧
        node (self w) = Sample.node_of "eu-1" ["eu"; "de"]) ∧
  (∃ w, @constructor Sample.clock (Sample.options_of None (Some "jp")) mgr = Returned w ∧
        node (self w) = Sample.node_of "us-1" ["us"]) ∧
  (∃ w, @constructor Sample.clock (Sample.options_of None None) mgr = Returned w ∧
        node (self w) = Sample.node_of "us-1" ["us"]) ∧
  @constructor Sample.clock (Sample.options_of None (Some "eu"))
    (Sample.manager_of [] None false) = Thrown Err.NoNode.
Proof.
  intros mgr.
  assert (∀ r : string, r ∉ ["us"] → ¬ advertises r (Sample.node_of "us-1" ["us"])) as Hus.
  { intros r Hr (o & rs & [= <-] & [= <-] & ?). done. }
  split; [|split; [|split]].
  - destruct (@constructor_selects_node Sample.clock
                (Sample.options_of None (Some "eu")) mgr) as (Hfirst & _).
    apply (Hfirst "eu" [Sample.node_of "us-1" ["us"]] _ [Sample.node_of "eu-2" ["eu"]]);
      [reflexivity | discriminate | reflexivity | |].
    + constructor; [|constructor]. apply Hus. by apply (bool_decide_unpack _).
    + eexists _, _. split; [reflexivity|]. split; [reflexivity|].
      by apply (bool_decide_unpack _).
  - destruct (@constructor_selects_node Sample.clock
                (Sample.options_of None (Some "jp")) mgr) as (_ & Hfallback & _).
    apply (Hfallback "jp" _ _ eq_refl eq_refl).
    repeat constructor; intros (o & rs & [= <-] & [= <-] & Hin); revert Hin;
      by apply (bool_decide_unpack _).
  - destruct (@constructor_selects_node Sample.clock
                (Sample.options_of None None) mgr) as (_ & _ & Hnone & _).
    apply (Hnone _ _ eq_refl eq_refl).
  - destruct (@constructor_selects_node Sample.clock
                (Sample.options_of None (Some "eu")) (Sample.manager_of [] None false))
      as (_ & _ & _ & Hempty).
    apply Hempty. reflexivity.
Defined.

(** ** pause and resume *)

Section PauseResume.
Context `{!QueueOps} `{!Clock}.

Lemma pause_paused_idle (w : World) :
  paused (self w) = true → playing (self w) = false →
  pause w = (Thrown Err.AlreadyPaused, w).
Proof. intros Hp Hpl. unfold pause. unfold_monad. by rewrite Hp, Hpl. Qed.

Lemma pause_sets_paused (w : World) :
  (pause w).1 = Returned () →
  paused (self (pause w).2) = true ∧ playing (self (pause w).2) = playing (self w).
Proof.
  unfold pause, dispatch, updatePlayer. unfold_monad.
  by destruct (paused (self w) && negb (playing (self w))).
Qed.

Lemma pause_while_playing (w : World) :
  playing (self w) = true → (pause w).1 = Returned ().
Proof.
  intros Hpl. unfold pause, dispatch, updatePlayer. unfold_monad.
  rewrite Hpl. by rewrite andb_false_r.
Qed.

(** C3, as the code has it. While the player is not playing, a second
    [pause()] after a [pause()] fails with a state-conflict error and
    changes nothing. While it is playing, [pause()] is accepted, whether
    the player is paused already or not: it returns, the player is paused,
    and [{paused: true}] has been sent; the second [pause()] of two in a
    row is accepted in the same way and sends [{paused: true}] again.
    [resume()] on a player that is not paused fails with a state-conflict
    error and changes nothing. *)
Theorem pause_resume_conflicts (w : World) :
  (playing (self w) = false →
     let w1 := (pause w).2 in
     fails_with StateConflictError (pause w1).1 ∧ (pause w1).2 = w1) ∧
  (playing (self w) = true →
     let w1 := (pause w).2 in
     let w2 := (pause w1).2 in
     (pause w).1 = Returned () ∧ paused (self w1) = true ∧
     sent w1 = sent w ++ [call_of w (only_paused true)] ∧
     (pause w1).1 = Returned () ∧ paused (self w2) = true ∧
     sent w2 = sent w ++ [call_of w (only_paused true); call_of w (only_paused true)]) ∧
  (paused (self w) = false →
     fails_with StateConflictError (resume w).1 ∧ (resume w).2 = w).
Proof.
  split; [|split].
  - intros Hpl w1.
    assert (paused (self w1) = true ∧ playing (self w1) = false) as [Hp1 Hpl1].
    { destruct (paused (self w)) eqn:Hp.
      - unfold w1. by rewrite pause_paused_idle.
      - unfold w1. rewrite <-Hpl. apply pause_sets_paused.
        unfold pause, dispatch, updatePlayer. unfold_monad. by rewrite Hp. }
    by rewrite pause_paused_idle.
  - intros Hpl w1 w2.
    assert (∀ w0, playing (self w0) = true →
              (pause w0).1 = Returned () ∧ paused (self (pause w0).2) = true ∧
              playing (self (pause w0).2) = true ∧
              guildId (self (pause w0).2) = guildId (self w0) ∧
              sent (pause w0).2 = sent w0 ++ [call_of w0 (only_paused true)]) as Hstep.
    { intros w0 Hpl0. unfold pause, dispatch, updatePlayer. unfold_monad.
      rewrite Hpl0, andb_false_r. by simpl. }
    destruct (Hstep w Hpl) as (Hr1 & Hp1 & Hpl1 & Hg1 & Hs1).
    destruct (Hstep w1 Hpl1) as (Hr2 & Hp2 & _ & _ & Hs2).
    repeat split; try done.
    subst w2 w1. rewrite Hs2, Hs1, <-app_assoc.
    unfold call_of. by rewrite Hg1.
  - intros Hp. unfold resume. unfold_monad. by rewrite Hp.
Qed.
End PauseResume.

Lemma pause_resume_conflicts_witness :
  let w := Sample.world None false (Some (Sample.song 180000)) [] in
  let busy := Sample.with_playing true w in
  fails_with StateConflictError (@pause Sample.clock (@pause Sample.clock w).2).1 ∧
  sent (@pause Sample.clock (@pause Sample.clock busy).2).2
  = [call_of busy (only_paused true); call_of busy (only_paused true)] ∧
  fails_with StateConflictError (@resume Sample.clock w).1.
Proof.
  intros w busy.
  destruct (@pause_resume_conflicts Sample.clock w) as (Hpause & _ & Hresume).
  destruct (@pause_resume_conflicts Sample.clock busy) as (_ & Hbusy & _).
  split; [apply (Hpause eq_refl)|].
  split; [apply (Hbusy eq_refl) | apply (Hresume eq_refl)].
Defined.

(** C3 as stated fails on a playing player: the guard of [pause] is
    [paused && !playing], so a player that is playing accepts [pause()]
    twice in a row and sends [{paused: true}] both times. *)
Lemma pause_twice_while_playing :
  let w := Sample.with_playing true
             (Sample.world None false (Some (Sample.song 180000)) []) in
  let w1 := (@pause Sample.clock w).2 in
  (@pause Sample.clock w).1 = Returned () ∧
  (@pause Sample.clock w1).1 = Returned () ∧
  ¬ fails_with StateConflictError (@pause Sample.clock w1).1 ∧
  length (sent (@pause Sample.clock w1).2) = 2%nat.
Proof. intros w w1. repeat split. intros []. Qed.

(** ** setVolume *)

Section Volume.
Context `{!QueueOps} `{!Clock}.

(** The volume [setVolume] sends: the clamped volume, scaled by the
    decrementer unless the caller asked to ignore it, not floored. *)
Lemma setVolume_runs (w : World) (v : number) (ignore : bool) :
  Num.isNaN v = false →
  let vol := if ignore then max_min v (ofZ 0) (ofZ 500)
             else decrement (manager (self w)) (max_min v (ofZ 0) (ofZ 500)) in
  let po := if applyVolumeAsFilter (playerOptions (manager (self w)))
            then only_filter_volume (Num.div vol (ofZ 100))
            else only_volume vol in
  setVolume v ignore w
  = (Returned (),
     {| self := with_ping (ping_of (elapsed (sent w) (call_of w po)))
                  (with_lavalinkVolume (floor2 vol)
                     (with_volume (max_min v (ofZ 0) (ofZ 500)) (self w)));
        sent := sent w ++ [call_of w po];
        emitted := emitted w |}).
Proof.
  intros Hv vol po. unfold setVolume, dispatch, updatePlayer. unfold_monad.
  rewrite Hv. simpl. unfold po, vol.
  by destruct ignore, (applyVolumeAsFilter _).
Qed.

(** C4, as the code has it. For every number [v] (not NaN), [setVolume]
    sends one update. Under [applyVolumeAsFilter] its only member is
    [filters: {volume: vol / 100}] and it has no top-level volume;
    otherwise its only member is the top-level [volume: vol] and it has
    no filters. Here [vol] is the clamped volume times the decrementer,
    not floored, whereas [lavalinkVolume] is [floor(vol * 100) / 100]: the
    filter volume is computed from [vol], not from [lavalinkVolume]. The
    switch is read from the manager's options, which [setVolume] leaves as
    they are. *)
Theorem setVolume_dispatch_shape (w : World) (v : number) (ignore : bool) :
  Num.isNaN v = false →
  let mgr := manager (self w) in
  let w' := (setVolume v ignore w).2 in
  let vol := if ignore then max_min v (ofZ 0) (ofZ 500)
             else decrement mgr (max_min v (ofZ 0) (ofZ 500)) in
  (setVolume v ignore w).1 = Returned () ∧
  manager (self w') = mgr ∧
  lavalinkVolume (self w') = floor2 vol ∧
  (applyVolumeAsFilter (playerOptions mgr) = true →
     sent w' = sent w ++ [call_of w (only_filter_volume (Num.div vol (ofZ 100)))] ∧
     pu_volume (only_filter_volume (Num.div vol (ofZ 100))) = Absent) ∧
  (applyVolumeAsFilter (playerOptions mgr) = false →
     sent w' = sent w ++ [call_of w (only_volume vol)] ∧
     pu_filters (only_volume vol) = Absent).
Proof.
  intros Hv mgr w' vol. unfold w'.
  rewrite (setVolume_runs w v ignore Hv). simpl. fold mgr vol.
  split; [done|]. split; [done|]. split; [done|].
  split; by intros ->.
Qed.
End Volume.

Lemma setVolume_dispatch_shape_witness :
  let asFilter := Sample.world None true (Some (Sample.song 180000)) [] in
  let direct := Sample.world (Some (ofQ (1 # 2))) false (Some (Sample.song 180000)) [] in
  sent (@setVolume Sample.clock (ofZ 80) false asFilter).2
    = [call_of asFilter (only_filter_volume (Num.div (ofZ 80) (ofZ 100)))] ∧
  sent (@setVolume Sample.clock (ofZ 80) false direct).2
    = [call_of direct (only_volume (Num.mul (ofZ 80) (ofQ (1 # 2))))].
Proof.
  intros asFilter direct.
  destruct (@setVolume_dispatch_shape Sample.clock asFilter (ofZ 80) false eq_refl)
    as (_ & _ & _ & Hfilter & _).
  destruct (@setVolume_dispatch_shape Sample.clock direct (ofZ 80) false eq_refl)
    as (_ & _ & _ & _ & Hdirect).
  split; [apply (Hfilter eq_refl) | apply (Hdirect eq_refl)].
Defined.

(** C4 as stated fails: with [applyVolumeAsFilter] and no decrementer,
    [setVolume(0.125)] stores [lavalinkVolume = floor(12.5) / 100 = 0.12]
    and sends the filter volume [0.125 / 100 = 0.00125], which is not
    [lavalinkVolume / 100 = 0.0012]. *)
Lemma setVolume_filter_volume_not_floored :
  let w := Sample.world None true (Some (Sample.song 180000)) [] in
  let w' := (@setVolume Sample.clock (ofQ (1 # 8)) false w).2 in
  lavalinkVolume (self w') = ofQ (12 # 100) ∧
  sent w' = [call_of w (only_filter_volume (ofQ (1 # 800)))] ∧
  ofQ (1 # 800) ≠ Num.div (lavalinkVolume (self w')) (ofZ 100).
Proof.
  intros w w'. split; [|split].
  - by apply (bool_decide_unpack _).
  - by apply (bool_decide_unpack _).
  - by apply (bool_decide_unpack _).
Qed.

(** ** play *)

Section Play.
Context `{!QueueOps} `{!Clock}.

(** Settling the current track touches the queue and nothing else. *)
Lemma resolve_track_frame (options : PlayOptions) (w : World) :
  ∃ q, resolve_track options w
       = (Returned (currentTrack q),
          {| self := with_queue q (self w); sent := sent w; emitted := emitted w |}).
Proof.
  destruct w as [[? ? ? q0 ? ? ? ? ? ? ? ? ? ? ?] ? ?].
  unfold resolve_track. unfold_monad. simpl.
  destruct (po_track options) as [| |t]; simpl;
    try destruct (isTrack q0 t); simpl;
    repeat match goal with
           | |- context [if ?b && ?c then _ else _] => destruct (b && c); simpl
           end; eauto.
Qed.

(** [play] once the current track is settled: the four checks in their
    order, over the prepared player and options. *)
Lemma play_runs (options : PlayOptions) (w w0 : World) (track : Track) :
  resolve_track options w = (Returned (Some track), w0) →
  let p2 := (prepared options (self w0)).1 in
  let fo := finalOptions_of track p2 (prepared options (self w0)).2 in
  let d := duration (info track) in
  let w2 := {| self := p2; sent := sent w0; emitted := emitted w0 |} in
  play options w =
    if bad_time (pu_position fo) d then (Thrown Err.PlayPosition, w2)
    else if bad_volume (pu_volume fo) then (Thrown Err.PlayVolume, w2)
    else if bad_time (pu_endTime fo) d then (Thrown Err.PlayEndTime, w2)
    else if end_before_position (pu_position fo) (pu_endTime fo)
    then (Thrown Err.PlayEndBeforePosition, w2)
    else (Returned (),
          dispatched w0 p2
            {| uc_guildId := guildId (self w0);
               uc_noReplace := Given (coalesce (po_noReplace options) false);
               uc_playerOptions := fo |}).
Proof.
  intros Hres. unfold play. unfold mbind at 1. unfold M_bind at 1. rewrite Hres.
  unfold play_volume, set, dispatch, updatePlayer, prepared, dispatched.
  unfold_monad.
  destruct (po_volume options) as [| |v]; simpl;
    try destruct (Num.isNaN v); simpl;
    rewrite target_ordinary by done; simpl;
    repeat match goal with
           | |- context [if ?b then _ else _] => destruct b; simpl
           end; done.
Qed.

(** A failed check throws a validation error before anything is sent; with
    all four passed, exactly one update is sent. *)
Lemma play_outcome (options : PlayOptions) (w w0 : World) (track : Track) :
  resolve_track options w = (Returned (Some track), w0) →
  let p2 := (prepared options (self w0)).1 in
  let fo := finalOptions_of track p2 (prepared options (self w0)).2 in
  (invalid fo (duration (info track)) = true →
     fails_with ValidationError (play options w).1 ∧
     (play options w).2 = {| self := p2; sent := sent w0; emitted := emitted w0 |}) ∧
  (invalid fo (duration (info track)) = false →
     play options w
     = (Returned (),
        dispatched w0 p2
          {| uc_guildId := guildId (self w0);
             uc_noReplace := Given (coalesce (po_noReplace options) false);
             uc_playerOptions := fo |})).
Proof.
  intros Hres p2 fo. rewrite (play_runs _ _ _ _ Hres). fold p2 fo.
  unfold invalid.
  destruct (bad_time (pu_position fo) _); [by split|].
  destruct (bad_volume (pu_volume fo)); [by split|].
  destruct (bad_time (pu_endTime fo) _); [by split|].
  destruct (end_before_position _ _); by split.
Qed.

Lemma final_position (options : PlayOptions) (track : Track) (p : Player) :
  pu_position (finalOptions_of track (prepared options p).1 (prepared options p).2)
  = effective_position options.
Proof.
  unfold prepared, effective_position.
  destruct (po_volume options) as [| |v]; try destruct (Num.isNaN v); simpl;
    by destruct (po_position options).
Qed.

Lemma final_endTime (options : PlayOptions) (track : Track) (p : Player) :
  pu_endTime (finalOptions_of track (prepared options p).1 (prepared options p).2)
  = po_endTime options.
Proof.
  unfold prepared.
  by destruct (po_volume options) as [| |v]; try destruct (Num.isNaN v).
Qed.

(** The volume [play] validates and sends. *)
Lemma final_volume (options : PlayOptions) (track : Track) (p : Player) :
  pu_volume (finalOptions_of track (prepared options p).1 (prepared options p).2)
  = match po_volume options with
    | Absent => Given (lavalinkVolume p)
    | Undefined => Undefined
    | Given v => if Num.isNaN v then Given v
                 else Given (decrement (manager p) (max_min v (ofZ 0) (ofZ 500)))
    end.
Proof.
  unfold prepared.
  destruct (po_volume options) as [| |v] eqn:Hv; try destruct (Num.isNaN v); simpl;
    by rewrite ?Hv.
Qed.

Lemma out_of_range_bad (x d : number) :
  Num.isNaN x = true ∨ Num.lt x (ofZ 0) = true ∨ Num.ge x d = true →
  bad_time (Given x) d = true.
Proof.
  intros [Hx | [Hx | Hx]]; simpl; rewrite Hx; [done| |];
    by rewrite ?orb_true_r.
Qed.

(** A clamped volume times a decrementer that scales down is a finite
    number that is not negative. *)
Lemma decrement_nonneg (mgr : LavalinkManager) (v : number) :
  Num.isNaN v = false → decrementer_scales_down mgr →
  bad_volume (Given (decrement mgr (max_min v (ofZ 0) (ofZ 500)))) = false.
Proof.
  intros Hv Hdec. destruct (clamped_volume v Hv) as (q & -> & Hq).
  unfold decrement, decrementer_scales_down, configured in *.
  destruct (volumeDecrementer (playerOptions mgr)) as [[| |c|]|]; try done.
  - destruct (Num.truthy (Fin c)); simpl.
    + apply bool_decide_eq_false, Qcle_not_lt.
      pose proof (Qcmult_le_compat_r _ _ _ Hq Hdec) as Hm.
      by rewrite Qcmult_0_l in Hm.
    + by apply bool_decide_eq_false, Qcle_not_lt.
  - simpl. by apply bool_decide_eq_false, Qcle_not_lt.
Qed.

(** C5, as the code has it. With the current track settled and of
    duration [d], [play] throws a validation error and sends nothing when
    the position it would send ([position], or 0 without one) is NaN,
    negative or not below [d]; when the [volume] option is NaN; when no
    [volume] is given and the player's [lavalinkVolume] is NaN or
    negative; when [endTime] is NaN, negative or not below [d]; and when
    [endTime] is below the position. With position 0 it returns, having
    sent one update with position 0, provided [d] is above 0 and the
    volume and the end time pass. A negative number given as [volume] is
    not rejected: it is clamped to 0 before the checks. *)
Theorem play_validation (options : PlayOptions) (w w0 : World) (track : Track) :
  resolve_track options w = (Returned (Some track), w0) →
  let d := duration (info track) in
  let out := play options w in
  let rejected := fails_with ValidationError out.1 ∧ sent out.2 = sent w in
  let accepted :=
    out.1 = Returned () ∧
    ∃ call, sent out.2 = sent w ++ [call] ∧
            pu_position (uc_playerOptions call) = effective_position options in
  let out_of_range (x : number) :=
    Num.isNaN x = true ∨ Num.lt x (ofZ 0) = true ∨ Num.ge x d = true in
  (∀ x, effective_position options = Given x → out_of_range x → rejected) ∧
  (∀ v, po_volume options = Given v → Num.isNaN v = true → rejected) ∧
  (po_volume options = Absent →
     Num.isNaN (lavalinkVolume (self w)) = true ∨
     Num.lt (lavalinkVolume (self w)) (ofZ 0) = true → rejected) ∧
  (∀ e, po_endTime options = Given e → out_of_range e → rejected) ∧
  (∀ x e, effective_position options = Given x → po_endTime options = Given e →
          Num.lt e x = true → rejected) ∧
  (effective_position options = Given (ofZ 0) → Num.lt (ofZ 0) d = true →
     volume_passes (self w) (po_volume options) →
     endTime_passes (ofZ 0) d (po_endTime options) → accepted) ∧
  (∀ v, po_volume options = Given v → Num.lt v (ofZ 0) = true →
        decrementer_scales_down (manager (self w)) →
        effective_position options = Given (ofZ 0) → Num.lt (ofZ 0) d = true →
        endTime_passes (ofZ 0) d (po_endTime options) →
        accepted ∧ volume (self out.2) = ofZ 0).
Proof.
  intros Hres d out rejected accepted out_of_range.
  destruct (play_outcome options w w0 track Hres) as [Hbad Hgood].
  destruct (resolve_track_frame options w) as [q Hq].
  rewrite Hq in Hres. injection Hres as Hcur <-.
  pose proof (final_position options track (with_queue q (self w))) as Hpos.
  pose proof (final_endTime options track (with_queue q (self w))) as Hend.
  pose proof (final_volume options track (with_queue q (self w))) as Hvol.
  cbn beta iota delta [self sent emitted] in Hbad, Hgood.
  set (fo := finalOptions_of track _ _) in *.
  assert (invalid fo d = true → rejected) as Hrej.
  { intros Hi. destruct (Hbad Hi) as [Hfail Hw]. split; [done|].
    unfold out. by rewrite Hw. }
  assert (invalid fo d = false → accepted) as Hacc.
  { intros Hi. unfold accepted, out. rewrite (Hgood Hi). split; [done|].
    eexists. split; [done|]. done. }
  assert (effective_position options = Given (ofZ 0) → Num.lt (ofZ 0) d = true →
          endTime_passes (ofZ 0) d (po_endTime options) →
          bad_volume (pu_volume fo) = false → invalid fo d = false) as Hzero.
  { intros Hp Hd He Hv. unfold invalid. rewrite Hv, Hpos, Hend, Hp.
    assert (bad_time (Given (ofZ 0)) d = false) as ->.
    { simpl. unfold Num.ge. by rewrite (lt_not_le _ _ Hd). }
    destruct (po_endTime options) as [| |e]; try done.
    destruct He as [He0 Hed]. destruct (le_zero_Fin e He0) as [Hn Hlt].
    simpl. unfold Num.ge. by rewrite Hn, Hlt, (lt_not_le _ _ Hed). }
  split; [|split; [|split; [|split; [|split; [|split]]]]].
  - intros x Hx Hr. apply Hrej. unfold invalid.
    by rewrite Hpos, Hx, (out_of_range_bad x d Hr).
  - intros v Hv Hn. apply Hrej. unfold invalid.
    rewrite Hvol, Hv, Hn. simpl. rewrite Hn. by rewrite orb_true_r.
  - intros Hv Hl. apply Hrej. unfold invalid. rewrite Hvol, Hv. simpl.
    assert (Num.isNaN (lavalinkVolume (self w)) || Num.lt (lavalinkVolume (self w)) (ofZ 0)
            = true) as ->.
    { destruct Hl as [-> | ->]; [done|]. by rewrite orb_true_r. }
    by rewrite orb_true_r.
  - intros e He Hr. apply Hrej. unfold invalid.
    rewrite Hend, He, (out_of_range_bad e d Hr). by rewrite orb_true_r.
  - intros x e Hx He Hlt. apply Hrej. unfold invalid.
    rewrite Hpos, Hend, Hx, He. simpl. rewrite Hlt. by rewrite !orb_true_r.
  - intros Hp Hd Hv He. apply Hacc, Hzero; try done.
    rewrite Hvol. destruct (po_volume options) as [| |v]; simpl in *.
    + destruct (le_zero_Fin _ Hv) as [-> ->]. done.
    + done.
    + destruct Hv as [Hn Hdec]. rewrite Hn. by apply decrement_nonneg.
  - intros v Hv Hneg Hdec Hp Hd He.
    assert (Num.isNaN v = false) as Hn by (by destruct v).
    assert (invalid fo d = false) as Hi.
    { apply Hzero; try done. rewrite Hvol, Hv, Hn. by apply decrement_nonneg. }
    split; [by apply Hacc|].
    unfold out. rewrite (Hgood Hi). unfold dispatched, prepared. simpl.
    rewrite Hv, Hn. simpl. by apply max_min_below.
Qed.
End Play.

Lemma play_validation_witness :
  let w := Sample.world None false (Some (Sample.song 180000)) [] in
  let late := Sample.play_with (Given (ofZ 180000)) Absent Absent in
  let start := Sample.play_with (Given (ofZ 0)) Absent (Given (ofZ 60000)) in
  (fails_with ValidationError (@play Sample.queue_ops Sample.clock late w).1 ∧
   sent (@play Sample.queue_ops Sample.clock late w).2 = sent w) ∧
  (@play Sample.queue_ops Sample.clock start w).1 = Returned ().
Proof.
  intros w late start. split.
  - destruct (@play_validation Sample.queue_ops Sample.clock late w w
                (Sample.song 180000) eq_refl) as (Hposition & _).
    apply (Hposition (ofZ 180000) eq_refl). right. right. reflexivity.
  - destruct (@play_validation Sample.queue_ops Sample.clock start w w
                (Sample.song 180000) eq_refl) as (_ & _ & _ & _ & _ & Hzero & _).
    apply Hzero; [reflexivity | reflexivity | reflexivity | split; reflexivity].
Defined.

(** C5 as stated fails in two places. A negative [volume] is not rejected:
    [play({volume: -5})] on a track of 180000 ms clamps it to 0, returns and
    sends [volume: 0]. And position 0 does not always succeed: on a track of
    duration 0 it is not below the duration and [play()] throws. *)
Lemma play_negative_volume_is_clamped :
  let w := Sample.world None false (Some (Sample.song 180000)) [] in
  let quiet := Sample.play_with Absent (Given (ofZ (-5))) Absent in
  let out := @play Sample.queue_ops Sample.clock quiet w in
  let w_empty := Sample.world None false (Some (Sample.song 0)) [] in
  (out.1 = Returned () ∧
   ¬ fails_with ValidationError out.1 ∧
   volume (self out.2) = ofZ 0 ∧
   (pu_volume ∘ uc_playerOptions) <$> sent out.2 = [Given (ofZ 0)]) ∧
  (@play Sample.queue_ops Sample.clock (Sample.play_with (Given (ofZ 0)) Absent Absent) w_empty).1
    = Thrown Err.PlayPosition.
Proof.
  intros w quiet out w_empty. split; [split; [|split; [|split]]|].
  - reflexivity.
  - intros [].
  - by apply (bool_decide_unpack _).
  - by apply (bool_decide_unpack _).
  - reflexivity.
Qed.

(** ** What play leaves behind *)

Section PlayEffects.
Context `{!QueueOps} `{!Clock}.

(** The player [play] ends with, whether it returns or throws one of its
    validation errors: the prepared player, with a new [ping] if an update
    was sent. *)
Lemma play_final_player (options : PlayOptions) (w w0 : World) (track : Track) :
  resolve_track options w = (Returned (Some track), w0) →
  let p2 := (prepared options (self w0)).1 in
  self (play options w).2 = p2 ∨
  ∃ ms, self (play options w).2 = with_ping ms p2 ∧ (play options w).1 = Returned ().
Proof.
  intros Hres p2. destruct (play_outcome options w w0 track Hres) as [Hbad Hgood].
  destruct (invalid _ _).
  - left. by destruct (Hbad eq_refl) as [_ ->].
  - right. rewrite (Hgood eq_refl). by eexists.
Qed.

Lemma play_sends_only_on_success (options : PlayOptions) (w w0 : World) (track : Track) :
  resolve_track options w = (Returned (Some track), w0) →
  ∀ e, (play options w).1 = Thrown e → sent (play options w).2 = sent w.
Proof.
  intros Hres e. destruct (play_outcome options w w0 track Hres) as [Hbad Hgood].
  destruct (resolve_track_frame options w) as [q Hq].
  rewrite Hq in Hres. injection Hres as _ <-.
  destruct (invalid _ _).
  - intros _. by destruct (Hbad eq_refl) as [_ ->].
  - by rewrite (Hgood eq_refl).
Qed.

(** C10. Once the current track is settled, [play] has changed the player
    before any of its checks runs, and a failed check does not undo it:
    the position the player had is stored under [lastposition], a key
    outside the reserved prefix that [clearData] removes; a number (not
    NaN) given as [volume] has set [volume] to its clamp and
    [lavalinkVolume] to the floored, decremented value; and when [play]
    throws, nothing has been sent. *)
Theorem play_mutates_before_validating
    (options : PlayOptions) (w w0 : World) (track : Track) :
  resolve_track options w = (Returned (Some track), w0) →
  let w' := (play options w).2 in
  data (self w') !! "lastposition" = Some (VNumber (position (self w))) ∧
  startsWith "internal_" "lastposition" = false ∧
  data (self (clearData w').2) !! "lastposition" = None ∧
  (∀ v, po_volume options = Given v → Num.isNaN v = false →
        volume (self w') = max_min v (ofZ 0) (ofZ 500) ∧
        lavalinkVolume (self w')
        = floor2 (decrement (manager (self w)) (max_min v (ofZ 0) (ofZ 500)))) ∧
  (∀ e, (play options w).1 = Thrown e → sent w' = sent w).
Proof.
  intros Hres w'.
  pose proof (play_final_player options w w0 track Hres) as Hfinal.
  pose proof (play_sends_only_on_success options w w0 track Hres) as Hsent.
  destruct (resolve_track_frame options w) as [q Hq].
  rewrite Hq in Hres. injection Hres as _ <-.
  cbn beta iota delta [self] in Hfinal.
  assert (∀ f : Player → Prop,
            (∀ ms, f (with_ping ms (prepared options (with_queue q (self w))).1)) →
            f (prepared options (with_queue q (self w))).1 → f (self w')) as Hboth.
  { intros f Hping Hplain. unfold w'. destruct Hfinal as [-> | (ms & -> & _)]; auto. }
  split; [|split; [done|split; [|split; [|done]]]].
  - apply (Hboth (λ p, data p !! "lastposition" = _)).
    + intros ms. unfold prepared.
      destruct (po_volume options) as [| |v]; try destruct (Num.isNaN v);
        apply lookup_insert_eq.
    + unfold prepared.
      destruct (po_volume options) as [| |v]; try destruct (Num.isNaN v);
        apply lookup_insert_eq.
  - by rewrite clearData_lookup.
  - intros v Hv Hn.
    apply (Hboth (λ p, volume p = _ ∧ lavalinkVolume p = _)).
    + intros ms. unfold prepared. by rewrite Hv, Hn.
    + unfold prepared. by rewrite Hv, Hn.
Qed.
End PlayEffects.

Lemma play_mutates_before_validating_witness :
  let w := Sample.world (Some (ofQ (1 # 2))) false (Some (Sample.song 180000)) [] in
  let options := Sample.play_with (Given (ofZ 999999)) (Given (ofZ 30)) Absent in
  let out := @play Sample.queue_ops Sample.clock options w in
  out.1 = Thrown Err.PlayPosition ∧
  data (self out.2) !! "lastposition" = Some (VNumber (ofZ 0)) ∧
  data (self (clearData out.2).2) !! "lastposition" = None ∧
  volume (self out.2) = max_min (ofZ 30) (ofZ 0) (ofZ 500) ∧
  sent out.2 = [].
Proof.
  intros w options out.
  destruct (@play_mutates_before_validating Sample.queue_ops Sample.clock options w w
              (Sample.song 180000) eq_refl) as (Hlast & _ & Hclear & Hvolume & Hsent).
  split; [reflexivity|]. split; [exact Hlast|]. split; [exact Hclear|].
  split; [apply (Hvolume (ofZ 30) eq_refl eq_refl)|].
  apply (Hsent Err.PlayPosition). reflexivity.
Defined.

(** ** The two volumes *)

Section VolumeInvariant.
Context `{!QueueOps} `{!Clock}.

Lemma volume_coherent_ext (p p' : Player) :
  volume_state p = volume_state p' → volume_coherent p → volume_coherent p'.
Proof.
  unfold volume_state, volume_coherent. intros [= Hm Hv Hl] Hc d.
  rewrite <-Hm, <-Hv, <-Hl. apply Hc.
Qed.

(** A volume set through the decrementer satisfies the relation. *)
Lemma decremented_coherent (p : Player) (v : number) :
  volume p = v → lavalinkVolume p = floor2 (decrement (manager p) v) →
  volume_coherent p.
Proof.
  intros Hv Hl d Hd _. rewrite Hl, Hv. unfold decrement. by rewrite Hd.
Qed.

Lemma setVolume_coherent (w : World) (v : number) :
  Num.isNaN v = false → volume_coherent (self (setVolume v false w).2).
Proof.
  intros Hv. rewrite (setVolume_runs w v false Hv).
  by apply (decremented_coherent _ (max_min v (ofZ 0) (ofZ 500))).
Qed.

Lemma setVolume_NaN (w : World) (v : number) (ignore : bool) :
  Num.isNaN v = true → setVolume v ignore w = (Thrown Err.VolumeNaN, w).
Proof. intros Hv. unfold setVolume. by rewrite Hv. Qed.

Lemma prepared_volume_state (options : PlayOptions) (p : Player) :
  match po_volume options with
  | Given v =>
      if Num.isNaN v then volume_state (prepared options p).1 = volume_state p
      else volume_coherent (prepared options p).1
  | _ => volume_state (prepared options p).1 = volume_state p
  end.
Proof.
  unfold prepared. destruct (po_volume options) as [| |v]; try done.
  destruct (Num.isNaN v); [done|].
  by apply (decremented_coherent _ (max_min v (ofZ 0) (ofZ 500))).
Qed.

(** [play] keeps the relation, and establishes it with a volume option. *)
Lemma play_coherent (options : PlayOptions) (w : World) :
  volume_coherent (self w) ∨
  (∃ track w0 v, resolve_track options w = (Returned (Some track), w0) ∧
                 po_volume options = Given v ∧ Num.isNaN v = false) →
  volume_coherent (self (play options w).2).
Proof.
  intros Hpre.
  destruct (resolve_track_frame options w) as [q Hq].
  destruct (currentTrack q) as [track|] eqn:Hcur.
  - pose proof (play_final_player options w _ track Hq) as Hfinal.
    cbn beta iota delta [self] in Hfinal.
    pose proof (prepared_volume_state options (with_queue q (self w))) as Hprep.
    assert (volume_coherent (prepared options (with_queue q (self w))).1) as Hc.
    { destruct Hpre as [Hc | (track' & w0' & v & _ & Hv & Hn)].
      - destruct (po_volume options) as [| |v]; try destruct (Num.isNaN v);
          try done; by apply (volume_coherent_ext (self w)).
      - by rewrite Hv, Hn in Hprep. }
    destruct Hfinal as [-> | (ms & -> & _)]; [done|].
    by eapply volume_coherent_ext; [|exact Hc].
  - assert (play options w = (Thrown Err.NoTrack,
              {| self := with_queue q (self w); sent := sent w; emitted := emitted w |}))
      as ->.
    { unfold play. unfold mbind at 1. unfold M_bind at 1. by rewrite Hq. }
    destruct Hpre as [Hc | (track' & w0' & v & Hres & _)].
    + by apply (volume_coherent_ext (self w)).
    + rewrite Hq in Hres. done.
Qed.

(** Every other operation leaves the manager and both volumes alone. *)
Lemma run_volume_state (op : Op) (w : World) :
  match op with OpPlay _ | OpSetVolume _ _ => True
  | _ => volume_state (self (run op w)) = volume_state (self w) end.
Proof.
  destruct op as [o|v i| | |p|m|n|k v|]; try done; unfold run.
  - unfold pause, dispatch, updatePlayer. unfold_monad.
    by destruct (paused (self w) && negb (playing (self w))).
  - unfold resume, dispatch, updatePlayer. unfold_monad.
    by destruct (negb (paused (self w))).
  - unfold seek, set, dispatch, updatePlayer. unfold_monad.
    destruct (currentTrack (queue (self w))) as [t|]; [|done].
    destruct (Num.isNaN p); [done|].
    destruct (negb (isSeekable (info t)) || isStream (info t)); [done|].
    by rewrite target_ordinary.
  - unfold setRepeatMode. unfold_monad. by destruct (parse_repeatMode m).
  - unfold skip, dispatch, updatePlayer. unfold_monad.
    case_bool_decide; [done|].
    destruct (Num.gt n (ofZ 1)); [|done].
    by destruct (Num.gt n _).
  - unfold set. unfold_monad. by destruct (target (self w) k).
Qed.

Lemma constructed_coherent (opts : PlayerOptions) (mgr : LavalinkManager)
    (v : number) (w0 : World) :
  opt_volume opts = Some v → Num.isNaN v = false →
  constructor opts mgr = Returned w0 → volume_coherent (self w0).
Proof.
  intros Hv Hn. unfold constructor.
  destruct (select_node mgr (opt_vcRegion opts)) as [n|]; [|done].
  unfold constructor_body. unfold_monad. rewrite Hv, Hn.
  destruct (configured _); cbn beta iota;
    match goal with
    | |- context [setVolume v false ?w1] =>
        pose proof (setVolume_coherent w1 v Hn) as Hc;
        rewrite (setVolume_runs w1 v false Hn) in Hc |- *
    end; by intros [= <-].
Qed.

Lemma run_coherent (op : Op) (w : World) :
  overrides_decrementer op = false →
  volume_coherent (self w) → volume_coherent (self (run op w)).
Proof.
  intros Hop Hc. pose proof (run_volume_state op w) as Hframe.
  destruct op as [o|v i| | |p|m|n|k v|];
    try (by eapply volume_coherent_ext; [symmetry; exact Hframe | exact Hc]).
  - unfold run. apply play_coherent. by left.
  - destruct i; [done|]. unfold run.
    destruct (Num.isNaN v) eqn:Hn.
    + by rewrite setVolume_NaN.
    + by apply setVolume_coherent.
Qed.

(** C2, as the code has it. In every world where the volume was last set
    through the decrementer (after a construction with a starting volume,
    a [setVolume(v)] or a [play] with a volume, and after any further
    operations other than [setVolume(v, true)], returning or throwing),
    [lavalinkVolume = floor(volume * decrementer * 100) / 100] whenever a
    decrementer is configured and the volume is not sent as a filter.
    [setVolume(v, true)] sets [lavalinkVolume] to
    [floor(volume * 100) / 100] instead. *)
Theorem volume_coherence (w : World) :
  (settled w → volume_coherent (self w)) ∧
  (∀ v, Num.isNaN v = false →
        volume (self (setVolume v true w).2) = max_min v (ofZ 0) (ofZ 500) ∧
        lavalinkVolume (self (setVolume v true w).2)
        = floor2 (max_min v (ofZ 0) (ofZ 500))).
Proof.
  split.
  - induction 1 as [opts mgr v w Hv Hn Hnew | w v Hn
                   | w w0 options track v Hres Hv Hn | w op Hop _ IH].
    + by eapply constructed_coherent.
    + by apply setVolume_coherent.
    + apply play_coherent. right. eauto 6.
    + by apply run_coherent.
  - intros v Hn. by rewrite (setVolume_runs w v true Hn).
Qed.
End VolumeInvariant.

Lemma volume_coherence_witness :
  let mgr := Sample.manager_of Sample.pool (Some (ofQ (1 # 2))) false in
  let w := Sample.world (Some (ofQ (1 # 2))) false (Some (Sample.song 180000)) [] in
  let w1 := @run Sample.queue_ops Sample.clock OpPause
              (@setVolume Sample.clock (ofZ 80) false w).2 in
  @settled Sample.queue_ops Sample.clock w1 ∧ volume_coherent (self w1) ∧
  lavalinkVolume (self (@setVolume Sample.clock (ofZ 80) true w).2)
  = floor2 (max_min (ofZ 80) (ofZ 0) (ofZ 500)).
Proof.
  intros mgr w w1.
  assert (@settled Sample.queue_ops Sample.clock w1) as Hsettled.
  { apply settled_step; [reflexivity|]. apply settled_setVolume. reflexivity. }
  split; [exact Hsettled|]. split.
  - exact (proj1 (@volume_coherence Sample.queue_ops Sample.clock w1) Hsettled).
  - exact (proj2 (proj2 (@volume_coherence Sample.queue_ops Sample.clock w)
                    (ofZ 80) eq_refl)).
Defined.

(** C2 as stated fails: [setVolume(v, true)] is a completed operation that
    sets [lavalinkVolume] without the decrementer. With a decrementer of
    0.5 and no volume filter, a player constructed with volume 80 has
    [lavalinkVolume = 40]; after [setVolume(100, true)] it has
    [volume = 100] and [lavalinkVolume = 100], not [floor(100 * 0.5 * 100) /
    100 = 50]. *)
Lemma setVolume_ignoring_decrementer_breaks_relation :
  let mgr := Sample.manager_of Sample.pool (Some (ofQ (1 # 2))) false in
  ∃ w0,
    @constructor Sample.clock (Sample.options_of (Some (ofZ 80)) None) mgr = Returned w0 ∧
    lavalinkVolume (self w0) = ofZ 40 ∧
    let w1 := (@setVolume Sample.clock (ofZ 100) true w0).2 in
    (@setVolume Sample.clock (ofZ 100) true w0).1 = Returned () ∧
    configured (volumeDecrementer (playerOptions (manager (self w1)))) = Some (ofQ (1 # 2)) ∧
    applyVolumeAsFilter (playerOptions (manager (self w1))) = false ∧
    volume (self w1) = ofZ 100 ∧
    lavalinkVolume (self w1) = ofZ 100 ∧
    decremented_volume (volume (self w1)) (ofQ (1 # 2)) = ofZ 50 ∧
    ¬ volume_coherent (self w1).
Proof.
  intros mgr. eexists.
  split; [reflexivity|]. split; [by apply (bool_decide_unpack _)|].
  intros w1.
  split; [reflexivity|]. split; [reflexivity|]. split; [reflexivity|].
  split; [by apply (bool_decide_unpack _)|].
  split; [by apply (bool_decide_unpack _)|].
  split; [by apply (bool_decide_unpack _)|].
  intros Hc. specialize (Hc (ofQ (1 # 2)) eq_refl eq_refl).
  revert Hc. by apply (bool_decide_unpack _).
Qed.

(** The constructor without a starting volume: the decrementer is applied
    to [volume], and [lavalinkVolume] keeps its initial 100. *)
Lemma constructor_default_volumes :
  let mgr := Sample.manager_of Sample.pool (Some (ofQ (1 # 2))) false in
  ∃ w0, @constructor Sample.clock (Sample.options_of None None) mgr = Returned w0 ∧
        volume (self w0) = ofZ 50 ∧ lavalinkVolume (self w0) = ofZ 100 ∧
        sent w0 = [].
Proof.
  intros mgr. eexists. split; [reflexivity|].
  split; [by apply (bool_decide_unpack _)|]. done.
Qed.

(** ** search *)

Section SearchFacts.
Context {T : Type} `{!JS.Host T}.

Lemma ofZ_truthy (z : Z) : Num.truthy (ofZ z) = negb (bool_decide (z = 0)).
Proof.
  simpl. f_equal. apply bool_decide_ext. split; [|by intros ->].
  intros Hz. rewrite <-(Qfloor_ofZ z). by rewrite Hz.
Qed.

(** Over an array, the tracks are the raw tracks, each built. *)
Lemma built_tracks_array (l : list value) (requestUser : value) :
  built_tracks (VArray l) requestUser
  = Returned (map (λ t, JS.buildTrack t requestUser) l).
Proof.
  unfold built_tracks.
  change (JS.get (VArray l) "length")
    with (Returned (VNumber (ofZ (Z.of_nat (length l))))).
  unfold mbind, outcome_bind, obind, JS.truthy. rewrite ofZ_truthy.
  destruct l as [|t l]; [done|].
  by rewrite bool_decide_eq_false_2.
Qed.

(** Apart from playlists the raw tracks are an array, and the response is
    built without an exception, with one built track per raw track. *)
Lemma search_total_without_playlist (res : RawResponse) (requestUser : value) :
  res_loadType res ≠ LoadPlaylist →
  ∃ r raw, search res requestUser = Returned r ∧ sr_playlist r = None ∧
           sr_tracks r = map (λ t, JS.buildTrack t requestUser) raw.
Proof.
  intros Hl. unfold search.
  rewrite (bool_decide_eq_false_2 (res_loadType res = LoadPlaylist)) by done.
  destruct (res_loadType res); try done; cbn [mbind outcome_bind obind mret outcome_ret].
  - rewrite built_tracks_array. by eexists _, _.
  - destruct (res_data res) as [| | | | |l| |]; cbn [JS.isArray];
      rewrite built_tracks_array; by eexists _, _.
  - rewrite built_tracks_array. by eexists _, _.
  - rewrite built_tracks_array. by eexists _, _.
Qed.

Lemma bind_throws {A B} (o : outcome A) (k : A → outcome B) :
  at_worst_TypeError o → (∀ a, throws_TypeError (k a)) → throws_TypeError (o ≫= k).
Proof.
  intros Ho Hk. destruct o as [a|e]; [apply Hk|]. by exists e.
Qed.

Lemma bind_thrown {A B} (o : outcome A) (k : A → outcome B) :
  throws_TypeError o → throws_TypeError (o ≫= k).
Proof. intros (e & -> & He). by exists e. Qed.

Lemma bind_at_worst {A B} (o : outcome A) (k : A → outcome B) :
  at_worst_TypeError o → (∀ a, at_worst_TypeError (k a)) → at_worst_TypeError (o ≫= k).
Proof. intros Ho Hk. destruct o as [a|e]; [apply Hk|done]. Qed.

Lemma or_else_at_worst (a : value) (b : outcome value) :
  at_worst_TypeError b → at_worst_TypeError (JS.or_else a b).
Proof. intros Hb. unfold JS.or_else. by destruct (JS.truthy a). Qed.

Lemma get_at_worst (v : value) (k : string) : at_worst_TypeError (JS.get v k).
Proof.
  destruct v; simpl; try done; repeat case_bool_decide; done.
Qed.

Lemma data_field_at_worst (data : value) (obj key : string) :
  at_worst_TypeError (data_field data obj key).
Proof.
  unfold data_field. apply bind_at_worst; [apply get_at_worst|done].
Qed.

Lemma index_at_worst (v : value) (n : number) : at_worst_TypeError (JS.index v n).
Proof.
  destruct v; simpl; try done;
    destruct (Num.as_integer n); try done; by case_bool_decide.
Qed.

Lemma selected_at_worst (resTracks sel : value) :
  at_worst_TypeError (selected resTracks sel).
Proof. destruct sel; try done. apply index_at_worst. Qed.

(** Reading [length] off raw tracks that are [undefined] or [null]. *)
Lemma total_duration_nullish (resTracks : value) :
  JS.nullish resTracks = true → throws_TypeError (total_duration resTracks).
Proof.
  intros Hn. destruct resTracks; try done; by eexists.
Qed.

(** A playlist response whose raw tracks are [undefined] or [null] (its
    [data] has no [tracks] array): building the [playlist] member ends in
    a [TypeError], at the latest when [resTracks.length] is read for the
    duration. *)
Lemma playlist_without_tracks_throws (data resTracks requestUser : value) :
  JS.nullish resTracks = true →
  throws_TypeError (playlist_of data resTracks requestUser).
Proof.
  intros Hn. unfold playlist_of.
  repeat first
    [ apply bind_thrown, total_duration_nullish; exact Hn
    | apply data_field_at_worst
    | apply selected_at_worst
    | apply or_else_at_worst
    | apply bind_throws; [|intros ?]
    | apply bind_at_worst; [|intros ?]
    | match goal with |- at_worst_TypeError (if ?b then _ else _) => destruct b end
    | done ].
Qed.

Lemma bind_returns {A B} (o : outcome A) (k : A → outcome B) :
  returns o = true → (∀ a, returns (k a) = true) → returns (o ≫= k) = true.
Proof. intros Ho Hk. destruct o as [a|e]; [apply Hk|done]. Qed.

Lemma or_else_returns (a : value) (b : outcome value) :
  returns b = true → returns (JS.or_else a b) = true.
Proof. intros Hb. unfold JS.or_else. by destruct (JS.truthy a). Qed.

Lemma data_field_returns (props : list (string * value)) (obj key : string) :
  returns (data_field (VObject props) obj key) = true.
Proof. done. Qed.

Lemma selected_array_returns (l : list value) (sel : value) :
  returns (selected (VArray l) sel) = true.
Proof.
  destruct sel as [| | |n| | | |]; try done. simpl.
  destruct (Num.as_integer n); [|done]. by case_bool_decide.
Qed.

Lemma total_duration_array_returns (l : list value) :
  returns (total_duration (VArray l)) = true.
Proof.
  unfold total_duration.
  change (JS.get (VArray l) "length")
    with (Returned (VNumber (ofZ (Z.of_nat (length l))))).
  unfold mbind, outcome_bind, obind. by destruct (JS.truthy _).
Qed.

(** A playlist response whose [data] is an object with a [tracks] array is
    built without an exception, whatever else is missing. *)
Lemma search_total_playlist_with_tracks (props : list (string * value))
    (l : list value) (pluginInfo requestUser : value) :
  JS.own props "tracks" = VArray l →
  ∃ r, search {| res_loadType := LoadPlaylist; res_data := VObject props;
                 res_pluginInfo := pluginInfo |} requestUser = Returned r ∧
       sr_tracks r = map (λ t, JS.buildTrack t requestUser) l.
Proof.
  intros Ht. unfold search. cbn [res_loadType res_data res_pluginInfo].
  rewrite (bool_decide_eq_true_2 (LoadPlaylist = LoadPlaylist)) by done.
  change (JS.get_opt (VObject props) "tracks") with (JS.own props "tracks").
  rewrite Ht, built_tracks_array.
  assert (returns (playlist_of (VObject props) (VArray l) requestUser) = true) as Hp.
  { unfold playlist_of.
    repeat first
      [ apply data_field_returns
      | apply selected_array_returns
      | apply total_duration_array_returns
      | apply or_else_returns
      | apply bind_returns; [|intros ?]
      | match goal with |- returns (if ?b then _ else _) = true => destruct b end
      | done ]. }
  destruct (playlist_of _ _ _) as [pl|e]; [|done]. by eexists.
Qed.

(** C1, where the code departs from it. Every playlist response whose
    [data] has no [tracks] ([data.tracks] is [undefined] or [null], or
    [data] itself is) makes [search] throw a [TypeError]: the raw tracks are
    not an array, and they are indexed for the selected track or, at the
    latest, asked for their [length] for the playlist's duration. No
    envelope is returned, so there is no [tracks] array either. *)
Theorem search_playlist_without_tracks_throws (data pluginInfo requestUser : value) :
  JS.nullish (JS.get_opt data "tracks") = true →
  throws_TypeError
    (search {| res_loadType := LoadPlaylist; res_data := data;
               res_pluginInfo := pluginInfo |} requestUser).
Proof.
  intros Hn. unfold search. cbn [res_loadType res_data res_pluginInfo].
  rewrite (bool_decide_eq_true_2 (LoadPlaylist = LoadPlaylist)) by done.
  apply bind_thrown, bind_thrown.
  by apply playlist_without_tracks_throws.
Qed.

(** The exception on a playlist response with playlist information and no
    tracks. *)
Example search_playlist_without_tracks_message (pluginInfo requestUser : value) :
  search {| res_loadType := LoadPlaylist;
            res_data := VObject [("info", VObject [("name", VString "mix")])];
            res_pluginInfo := pluginInfo |} requestUser
  = Thrown (mkError TypeErrorC "Cannot read properties of undefined (reading 'length')").
Proof. reflexivity. Qed.
End SearchFacts.

Lemma search_playlist_without_tracks_throws_witness :
  throws_TypeError
    (@search value Sample.host
       {| res_loadType := LoadPlaylist;
          res_data := VObject [("info", VObject [("name", VString "mix")])];
          res_pluginInfo := VObject [] |} VNull).
Proof.
  apply (@search_playlist_without_tracks_throws value Sample.host). reflexivity.
Defined.

(** A well-formed playlist response, run through the sample host: the
    selected track supplies the thumbnail, the durations add up, and every
    raw track is built. *)
Example search_sample_playlist :
  let first := VObject [("info", VObject [("duration", VNumber (ofZ 1000));
                                          ("artworkUrl", VString "a.png")])] in
  let second := VObject [("info", VObject [("duration", VNumber (ofZ 2500))])] in
  @search value Sample.host
    {| res_loadType := LoadPlaylist;
       res_data := VObject [("info", VObject [("name", VString "mix");
                                              ("selectedTrack", VNumber (ofZ 0))]);
                            ("tracks", VArray [first; second])];
       res_pluginInfo := VUndefined |} VNull
  = Returned
      {| sr_loadType := LoadPlaylist; sr_exception := VNull;
         sr_pluginInfo := VObject [];
         sr_playlist :=
           Some {| pl_name := VString "mix"; pl_author := VNull;
                   pl_thumbnail := VString "a.png"; pl_uri := VNull;
                   pl_selectedTrack := Some first;
                   pl_duration := VNumber (ofZ 3500) |};
         sr_tracks := [first; second] |}.
Proof. reflexivity. Qed.

(** * Further properties *)

(** ** The side-channel data: set, get, getAllData *)

Section DataAccess.
Context `{!QueueOps} `{!Clock} `{!Builtins}.


Lemma NoDup_fst_filter {A B} (f : A * B → bool) (l : list (A * B)) :
  NoDup l.*1 → NoDup (List.filter f l).*1.
Proof.
  induction l as [|[a b] l IH]; simpl; [done|].
  intros [Ha Hl]%NoDup_cons. destruct (f (a, b)); simpl; [|by apply IH].
  apply NoDup_cons. split; [|by apply IH].
  intros (x & Hx & Hin)%list_elem_of_fmap. apply Ha.
  apply list_elem_of_fmap. exists x. split; [done|].
  apply list_elem_of_In in Hin. apply filter_In in Hin as [Hin _].
  by apply list_elem_of_In.
Qed.

Lemma getAllData_lookup (w : World) (k : string) :
  ∃ m, getAllData w = (Returned m, w) ∧
       m !! k = if startsWith "internal_" k then None else data (self w) !! k.
Proof.
  unfold getAllData. unfold_monad. eexists. split; [done|].
  set (l := List.filter _ _).
  assert (NoDup l.*1) as Hnd.
  { apply NoDup_fst_filter, NoDup_fst_map_to_list. }
  assert (∀ v, (k, v) ∈ l ↔ data (self w) !! k = Some v ∧ startsWith "internal_" k = false)
    as Hin.
  { intros v. unfold l. rewrite list_elem_of_In, filter_In, <-list_elem_of_In.
    rewrite elem_of_map_to_list. simpl. by rewrite negb_true_iff. }
  destruct (list_to_map l !! k) as [v|] eqn:Hk.
  - apply elem_of_list_to_map in Hk; [|done]. apply Hin in Hk as [Hk ->]. done.
  - destruct (startsWith "internal_" k) eqn:Hpre; [done|].
    destruct (data (self w) !! k) as [v|] eqn:Hv; [|done].
    assert ((k, v) ∈ l) as Hl by by apply Hin.
    apply (elem_of_list_to_map_1 (M := gmap string)) in Hl; [|done]. congruence.
Qed.

(** X2. [getAllData] returns exactly the entries whose key does not start
    with [internal_], each with its value, and changes nothing. *)
Theorem getAllData_public_entries (w : World) (k : string) :
  ∃ m, getAllData w = (Returned m, w) ∧
       (startsWith "internal_" k = true → m !! k = None) ∧
       (startsWith "internal_" k = false → m !! k = data (self w) !! k).
Proof.
  destruct (getAllData_lookup w k) as (m & Hm & Hk). exists m. split; [done|].
  split; intros Hpre; by rewrite Hpre in Hk.
Qed.

(** X3. [getAllData] and [clearData] split the data in two: what the first
    returns and what the second leaves are disjoint and together are the
    data; after [clearData], [getAllData] returns the empty object, and a
    second [clearData] changes nothing. *)
Theorem getAllData_clearData_partition (w : World) :
  ∃ m, (getAllData w).1 = Returned m ∧
       m ##ₘ data (self (clearData w).2) ∧
       m ∪ data (self (clearData w).2) = data (self w) ∧
       (getAllData (clearData w).2).1 = Returned ∅ ∧
       (clearData (clearData w).2).2 = (clearData w).2.
Proof.
  destruct (getAllData_lookup w "") as (m & Hm & _). exists m.
  assert (∀ k, m !! k = if startsWith "internal_" k then None else data (self w) !! k)
    as Hlook.
  { intros k. destruct (getAllData_lookup w k) as (m' & Hm' & Hk).
    rewrite Hm in Hm'. by injection Hm' as <-. }
  split; [by rewrite Hm|]. split; [|split; [|split]].
  - apply map_disjoint_spec. intros k x y Hx Hy.
    rewrite Hlook in Hx. rewrite clearData_lookup in Hy.
    by destruct (startsWith "internal_" k).
  - apply map_eq. intros k. rewrite lookup_union, Hlook, clearData_lookup.
    destruct (startsWith "internal_" k); by destruct (data (self w) !! k).
  - destruct (getAllData_lookup (clearData w).2 "") as (m' & Hm' & _).
    rewrite Hm'. simpl. f_equal. apply map_eq. intros k.
    destruct (getAllData_lookup (clearData w).2 k) as (m'' & Hm'' & Hk).
    rewrite Hm' in Hm''. injection Hm'' as <-.
    rewrite Hk, clearData_lookup, lookup_empty.
    by destruct (startsWith "internal_" k).
  - set (w1 := (clearData w).2).
    assert (data (self (clearData w1).2) = data (self w1)) as Hd.
    { apply map_eq. intros k. rewrite (clearData_lookup w1 k). unfold w1.
      rewrite (clearData_lookup w k). by destruct (startsWith "internal_" k). }
    change ((clearData w1).2)
      with {| self := with_data (data (self (clearData w1).2)) (self w);
              sent := sent w; emitted := emitted w |}.
    by rewrite Hd.
Qed.
End DataAccess.


Lemma getAllData_public_entries_witness :
  let w := (@set "internal_lastposition" (VNumber (ofZ 7))
              (@set "note" (VString "a") (Sample.world None false None [])).2).2 in
  ∃ m, getAllData w = (Returned m, w) ∧
       m !! "internal_lastposition" = None ∧ m !! "note" = Some (VString "a").
Proof.
  intros w.
  destruct (getAllData_public_entries w "internal_lastposition") as (m & Hm & Hreserved & _).
  destruct (getAllData_public_entries w "note") as (m' & Hm' & _ & Hpublic).
  rewrite Hm in Hm'. injection Hm' as <-.
  exists m. split; [exact Hm|]. split; [by apply Hreserved|].
  rewrite Hpublic by reflexivity. reflexivity.
Defined.

(** ** setRepeatMode, setVolume, seek, pause and resume *)

Section StateMachine.
Context `{!QueueOps} `{!Clock}.

(** X4. [setRepeatMode] accepts exactly ["off"], ["track"] and ["queue"]:
    it then stores the mode, changes nothing else and sends nothing; any
    other string throws the [RangeError] and changes nothing. *)
Theorem setRepeatMode_accepts_three (w : World) (mode : string) :
  (mode ∈ ["off"; "track"; "queue"] →
     ∃ m, setRepeatMode mode w
          = (Returned (), {| self := with_repeatMode m (self w);
                             sent := sent w; emitted := emitted w |}) ∧
          (mode = "off" → m = RepeatOff) ∧ (mode = "track" → m = RepeatTrack) ∧
          (mode = "queue" → m = RepeatQueue)) ∧
  (mode ∉ ["off"; "track"; "queue"] →
     setRepeatMode mode w = (Thrown Err.BadRepeatMode, w)).
Proof.
  unfold setRepeatMode, parse_repeatMode. unfold_monad. split.
  - intros Hin.
    apply elem_of_cons in Hin as [-> | Hin]; [by eexists|].
    apply elem_of_cons in Hin as [-> | Hin]; [by eexists|].
    apply elem_of_cons in Hin as [-> | Hin]; [by eexists|].
    by apply elem_of_nil in Hin.
  - intros Hnot.
    rewrite !bool_decide_eq_false_2; [done|..];
      intros ->; apply Hnot; by repeat constructor.
Qed.

(** X5. [setVolume] never rejects a number for its size: for every number
    that is not NaN the stored [volume] is its clamp into 0..500, which
    lies between 0 and 500; NaN throws the [TypeError] and changes
    nothing. *)
Theorem setVolume_clamps (w : World) (v : number) (ignore : bool) :
  (Num.isNaN v = false →
     (setVolume v ignore w).1 = Returned () ∧
     volume (self (setVolume v ignore w).2) = clamp v (ofZ 0) (ofZ 500) ∧
     Num.le (ofZ 0) (volume (self (setVolume v ignore w).2)) = true ∧
     Num.le (volume (self (setVolume v ignore w).2)) (ofZ 500) = true) ∧
  (Num.isNaN v = true → setVolume v ignore w = (Thrown Err.VolumeNaN, w)).
Proof.
  split.
  - intros Hv. rewrite (setVolume_runs w v ignore Hv). simpl.
    rewrite max_min_clamp by done. split; [done|]. split; [done|].
    unfold clamp.
    destruct (Num.lt v (ofZ 0)) eqn:Hlo; [done|].
    destruct (Num.lt (ofZ 500) v) eqn:Hhi; [done|].
    destruct v as [| |q|]; try done. simpl in *.
    apply bool_decide_eq_false in Hlo, Hhi.
    split; apply bool_decide_eq_true; by apply Qcnot_lt_le.
  - intros Hv. unfold setVolume. by rewrite Hv.
Qed.

(** X6. [setVolume] is idempotent on what it stores: a second call with
    the same arguments leaves every field but [ping], the round trip that
    is measured anew at each call, as the first call left it, and sends the
    same update once more. *)
Theorem setVolume_idempotent (w : World) (v : number) (ignore : bool) :
  Num.isNaN v = false →
  let w1 := (setVolume v ignore w).2 in
  let w2 := (setVolume v ignore w1).2 in
  (∃ ms, self w2 = with_ping ms (self w1)) ∧
  ∃ call, sent w1 = sent w ++ [call] ∧ sent w2 = sent w ++ [call; call].
Proof.
  intros Hv w1 w2. unfold w2, w1.
  rewrite (setVolume_runs _ v ignore Hv). rewrite (setVolume_runs w v ignore Hv).
  cbn [self sent emitted snd manager with_ping with_lavalinkVolume with_volume].
  split; [by eexists|]. eexists. split; [done|]. by rewrite <-app_assoc.
Qed.

(** X7. [seek] without a current track returns at once, whatever the
    position, NaN included, and changes nothing. With a current track, NaN
    throws the "must be a number" [RangeError]; a track that is not
    seekable, or is a stream, throws the "not seekable" one; both leave the
    world as it was. *)
Theorem seek_preconditions (w : World) (p : number) :
  (currentTrack (queue (self w)) = None → seek p w = (Returned (), w)) ∧
  (∀ track, currentTrack (queue (self w)) = Some track →
     (Num.isNaN p = true → seek p w = (Thrown Err.PositionNaN, w)) ∧
     (Num.isNaN p = false →
      isSeekable (info track) = false ∨ isStream (info track) = true →
      seek p w = (Thrown Err.NotSeekable, w))).
Proof.
  unfold seek. unfold_monad. split.
  - by intros ->.
  - intros track ->. split.
    + by intros ->.
    + intros -> [-> | ->]; [done|]. by rewrite orb_true_r.
Qed.

(** X8. [pause] and [resume] undo each other. On a player that is not
    paused, [pause()] then [resume()] both return, leave every field but
    [ping] as it was, and have sent [{paused: true}] then
    [{paused: false}]. On a paused player [resume()] then [pause()] both
    return and the player is paused again. *)
Theorem pause_resume_round_trip (w : World) :
  (paused (self w) = false →
     let w1 := (pause w).2 in
     (pause w).1 = Returned () ∧ (resume w1).1 = Returned () ∧
     (∃ ms, self (resume w1).2 = with_ping ms (self w)) ∧
     (pu_paused ∘ uc_playerOptions) <$> sent (resume w1).2
     = ((pu_paused ∘ uc_playerOptions) <$> sent w) ++ [Given true; Given false]) ∧
  (paused (self w) = true →
     let w1 := (resume w).2 in
     (resume w).1 = Returned () ∧ (pause w1).1 = Returned () ∧
     (∃ ms, self (pause w1).2 = with_ping ms (self w))).
Proof.
  destruct w as [p s e]. destruct p.
  unfold pause, resume, dispatch, updatePlayer. unfold_monad. simpl.
  split; intros ->; simpl; (split; [done|]); (split; [done|]).
  - split; [by eexists|]. by rewrite !fmap_app, <-app_assoc.
  - by eexists.
Qed.
End StateMachine.

Lemma setRepeatMode_accepts_three_witness :
  let w := Sample.world None false None [] in
  (∃ m, @setRepeatMode "queue" w
        = (Returned (), {| self := with_repeatMode m (self w);
                           sent := sent w; emitted := emitted w |}) ∧
        m = RepeatQueue) ∧
  @setRepeatMode "shuffle" w = (Thrown Err.BadRepeatMode, w).
Proof.
  intros w. split.
  - destruct (setRepeatMode_accepts_three w "queue") as [Hok _].
    destruct Hok as (m & Hm & _ & _ & Hq); [by repeat constructor|].
    exists m. split; [exact Hm | by apply Hq].
  - destruct (setRepeatMode_accepts_three w "shuffle") as [_ Hbad].
    apply Hbad. by apply (bool_decide_unpack _).
Defined.

Lemma setVolume_clamps_witness :
  let w := Sample.world None false None [] in
  volume (self (@setVolume Sample.clock (ofZ 9000) false w).2) = clamp (ofZ 9000) (ofZ 0) (ofZ 500) ∧
  @setVolume Sample.clock NaN false w = (Thrown Err.VolumeNaN, w).
Proof.
  intros w.
  destruct (@setVolume_clamps Sample.clock w (ofZ 9000) false) as [Hok _].
  destruct (@setVolume_clamps Sample.clock w NaN false) as [_ Hbad].
  split; [apply (Hok eq_refl) | apply (Hbad eq_refl)].
Defined.

Lemma setVolume_idempotent_witness :
  let w := Sample.world (Some (ofQ (1 # 2))) false None [] in
  let w1 := (@setVolume Sample.clock (ofZ 80) false w).2 in
  let w2 := (@setVolume Sample.clock (ofZ 80) false w1).2 in
  volume (self w2) = volume (self w1) ∧
  lavalinkVolume (self w2) = lavalinkVolume (self w1) ∧
  length (sent w2) = 2%nat.
Proof.
  intros w w1 w2.
  destruct (@setVolume_idempotent Sample.clock w (ofZ 80) false eq_refl)
    as ([ms Hself] & call & Hfirst & Hsecond).
  fold w1 in Hself, Hfirst, Hsecond. fold w2 in Hself, Hsecond.
  rewrite Hself, Hsecond. by destruct (self w1).
Defined.

Lemma seek_preconditions_witness :
  let idle := Sample.world None false None [] in
  let live := Sample.world None false
                (Some {| encodedTrack := "QAAA";
                         info := {| duration := ofZ 0; isSeekable := true;
                                    isStream := true |} |}) [] in
  @seek Sample.clock NaN idle = (Returned (), idle) ∧
  @seek Sample.clock NaN live = (Thrown Err.PositionNaN, live) ∧
  @seek Sample.clock (ofZ 10) live = (Thrown Err.NotSeekable, live).
Proof.
  intros idle live.
  destruct (@seek_preconditions Sample.clock idle NaN) as [Hidle _].
  destruct (@seek_preconditions Sample.clock live NaN) as [_ Hnan].
  destruct (@seek_preconditions Sample.clock live (ofZ 10)) as [_ Hstream].
  split; [apply Hidle; reflexivity|]. split.
  - apply (Hnan _ eq_refl). reflexivity.
  - apply (Hstream _ eq_refl); [reflexivity | by right].
Defined.

Lemma pause_resume_round_trip_witness :
  let w := Sample.world None false (Some (Sample.song 180000)) [] in
  (@resume Sample.clock (@pause Sample.clock w).2).1 = Returned () ∧
  ∃ ms, self (@resume Sample.clock (@pause Sample.clock w).2).2 = with_ping ms (self w).
Proof.
  intros w.
  destruct (@pause_resume_round_trip Sample.clock w) as [Hplay _].
  destruct (Hplay eq_refl) as (_ & Hresume & Hself & _).
  split; [exact Hresume | exact Hself].
Defined.

(** ** play: the missing track and the update sent *)

Section PlayMore.
Context `{!QueueOps} `{!Clock}.

(** X9. [play] without a track to play: when settling the current track
    leaves none, [play] throws the "no track" error before it looks at any
    option: nothing is sent, and [volume], [lavalinkVolume], [position] and
    the data (no [lastposition]) are as they were, even with a volume
    option. On a player with no current track, an empty queue and no [track]
    option this is what happens, and the world is unchanged. *)
Theorem play_without_track (options : PlayOptions) (w : World) :
  (∀ w0, resolve_track options w = (Returned None, w0) →
     play options w = (Thrown Err.NoTrack, w0) ∧
     fails_with PreconditionError (play options w).1 ∧
     sent w0 = sent w ∧ data (self w0) = data (self w) ∧
     volume_state (self w0) = volume_state (self w) ∧
     position (self w0) = position (self w)) ∧
  (currentTrack (queue (self w)) = None → tracks (queue (self w)) = [] →
   (∀ t, po_track options ≠ Given t) →
   play options w = (Thrown Err.NoTrack, w)).
Proof.
  split.
  - intros w0 Hres.
    assert (play options w = (Thrown Err.NoTrack, w0)) as Hplay.
    { unfold play. unfold mbind at 1. unfold M_bind at 1. by rewrite Hres. }
    rewrite Hplay. split; [done|]. split; [done|].
    destruct (resolve_track_frame options w) as [q Hq].
    rewrite Hq in Hres. by injection Hres as _ <-.
  - intros Hcur Hpending Hno.
    assert (resolve_track options w = (Returned None, w)) as Hres.
    { unfold resolve_track, Queue.size. unfold_monad.
      destruct (po_track options) as [| |t]; [| |by destruct (Hno t)];
        simpl; rewrite Hcur, Hpending; simpl; by rewrite Hcur. }
    unfold play. unfold mbind at 1. unfold M_bind at 1. by rewrite Hres.
Qed.

(** X10. The update of a [play] that returns: it is the one update sent,
    for the player's guild, with [noReplace] as given or [false]; its
    [encodedTrack] is the option's when one is given, else the current
    track's; its position is the option's or 0; its volume is the clamped
    and decremented volume option, or the player's [lavalinkVolume] without
    one; the other members are the caller's. *)
Theorem play_update (options : PlayOptions) (w w0 : World) (track : Track) :
  resolve_track options w = (Returned (Some track), w0) →
  (play options w).1 = Returned () →
  ∃ call,
    sent (play options w).2 = sent w ++ [call] ∧
    uc_guildId call = guildId (self w) ∧
    uc_noReplace call = Given (coalesce (po_noReplace options) false) ∧
    pu_encodedTrack (uc_playerOptions call)
    = spread (Given (Some (encodedTrack track))) (po_encodedTrack options) ∧
    pu_position (uc_playerOptions call) = effective_position options ∧
    pu_volume (uc_playerOptions call)
    = match po_volume options with
      | Absent => Given (lavalinkVolume (self w))
      | Undefined => Undefined
      | Given v => Given (decrement (manager (self w)) (max_min v (ofZ 0) (ofZ 500)))
      end ∧
    pu_endTime (uc_playerOptions call) = po_endTime options ∧
    pu_identifier (uc_playerOptions call) = po_identifier options ∧
    pu_paused (uc_playerOptions call) = po_paused options ∧
    pu_filters (uc_playerOptions call) = po_filters options ∧
    pu_voice (uc_playerOptions call) = po_voice options.
Proof.
  intros Hres Hret.
  destruct (play_outcome options w w0 track Hres) as [Hbad Hgood].
  destruct (resolve_track_frame options w) as [q Hq].
  rewrite Hq in Hres. injection Hres as _ <-.
  pose proof (final_position options track (with_queue q (self w))) as Hpos.
  pose proof (final_endTime options track (with_queue q (self w))) as Hend.
  pose proof (final_volume options track (with_queue q (self w))) as Hvol.
  cbn beta iota delta [self sent emitted] in Hbad, Hgood.
  destruct (invalid _ _) eqn:Hi.
  { destruct (Hbad eq_refl) as [Hfail _]. by rewrite Hret in Hfail. }
  assert (bad_volume (pu_volume (finalOptions_of track
            (prepared options (with_queue q (self w))).1
            (prepared options (with_queue q (self w))).2)) = false) as Hv.
  { unfold invalid in Hi. by repeat (apply orb_false_iff in Hi as [Hi ?]). }
  rewrite Hvol in Hv.
  rewrite (Hgood eq_refl). eexists. split; [done|].
  cbn [uc_guildId uc_noReplace uc_playerOptions].
  rewrite Hpos, Hend, Hvol. clear Hpos Hend Hvol Hbad Hgood Hi.
  unfold prepared.
  destruct (po_volume options) as [| |v]; try done.
  destruct (Num.isNaN v) eqn:Hn; [|done].
  simpl in Hv. by rewrite Hn in Hv.
Qed.
End PlayMore.

Lemma play_without_track_witness :
  let w := Sample.world None false None [] in
  let options := Sample.play_with Absent (Given (ofZ 30)) Absent in
  @play Sample.queue_ops Sample.clock options w = (Thrown Err.NoTrack, w).
Proof.
  intros w options.
  destruct (@play_without_track Sample.queue_ops Sample.clock options w) as [_ Hidle].
  apply Hidle; [reflexivity | reflexivity | discriminate].
Defined.

Lemma play_update_witness :
  let w := Sample.world None false (Some (Sample.song 180000)) [] in
  ∃ call,
    sent (@play Sample.queue_ops Sample.clock no_options w).2 = [call] ∧
    uc_noReplace call = Given false ∧
    pu_encodedTrack (uc_playerOptions call) = Given (Some (encodedTrack (Sample.song 180000))) ∧
    pu_position (uc_playerOptions call) = Given (ofZ 0) ∧
    pu_volume (uc_playerOptions call) = Given (ofZ 100).
Proof.
  intros w.
  destruct (@play_update Sample.queue_ops Sample.clock no_options w w
              (Sample.song 180000) eq_refl eq_refl)
    as (call & Hsent & _ & Hno & Henc & Hpos & Hvol & _).
  exists call. by repeat split.
Defined.

(** ** What every operation leaves alone *)

Section Frames.
Context `{!QueueOps} `{!Clock}.

Lemma play_framed (options : PlayOptions) (w : World) :
  ∃ calls, framed (OpPlay options) w calls ∧ (length calls ≤ 1)%nat.
Proof.
  unfold framed, run.
  destruct (resolve_track_frame options w) as [q Hq].
  destruct (currentTrack q) as [track|] eqn:Hcur.
  - destruct (play_outcome options w _ track Hq) as [Hbad Hgood].
    cbn beta iota delta [self sent emitted] in Hbad, Hgood.
    assert (identity (prepared options (with_queue q (self w))).1 = identity (self w))
      as Hid.
    { unfold prepared.
      by destruct (po_volume options) as [| |v]; try destruct (Num.isNaN v). }
    destruct (invalid _ _).
    + destruct (Hbad eq_refl) as [Hfail ->]. exists []. rewrite app_nil_r.
      repeat split; try done. simpl. lia.
    + rewrite (Hgood eq_refl). eexists [_]. repeat split; try done.
  - assert (play options w = (Thrown Err.NoTrack,
              {| self := with_queue q (self w); sent := sent w; emitted := emitted w |}))
      as ->.
    { unfold play. unfold mbind at 1. unfold M_bind at 1. by rewrite Hq. }
    exists []. rewrite app_nil_r. repeat split; try done. simpl. lia.
Qed.

Lemma run_framed (op : Op) (w : World) :
  ∃ calls, framed op w calls ∧ (length calls ≤ 1)%nat.
Proof.
  destruct op as [o|v i| | |p|m|n|k v|].
  - apply play_framed.
  - unfold framed, run. destruct (Num.isNaN v) eqn:Hn.
    + rewrite setVolume_NaN by done. exists []. rewrite app_nil_r.
      repeat split; try done. simpl. lia.
    + rewrite (setVolume_runs w v i Hn). eexists [_]. repeat split; try done.
  - unfold framed, run, pause, dispatch, updatePlayer. unfold_monad.
    destruct (paused (self w) && negb (playing (self w))).
    + exists []. rewrite app_nil_r. repeat split; try done. simpl. lia.
    + eexists [_]. repeat split; try done.
  - unfold framed, run, resume, dispatch, updatePlayer. unfold_monad.
    destruct (negb (paused (self w))).
    + exists []. rewrite app_nil_r. repeat split; try done. simpl. lia.
    + eexists [_]. repeat split; try done.
  - unfold framed, run, seek, set, dispatch, updatePlayer. unfold_monad.
    destruct (currentTrack (queue (self w))) as [t|].
    2:{ exists []. rewrite app_nil_r. repeat split; try done. simpl. lia. }
    destruct (Num.isNaN p).
    { exists []. rewrite app_nil_r. repeat split; try done. simpl. lia. }
    destruct (negb (isSeekable (info t)) || isStream (info t)).
    + exists []. rewrite app_nil_r. repeat split; try done. simpl. lia.
    + rewrite target_ordinary by done. eexists [_]. repeat split; try done.
  - unfold framed, run, setRepeatMode. unfold_monad.
    exists []. rewrite app_nil_r.
    destruct (parse_repeatMode m); repeat split; try done; simpl; lia.
  - unfold framed, run, skip, dispatch, updatePlayer. unfold_monad.
    case_bool_decide.
    { exists []. rewrite app_nil_r. repeat split; try done. simpl. lia. }
    destruct (Num.gt n (ofZ 1)); [destruct (Num.gt n _)|].
    + exists []. rewrite app_nil_r. repeat split; try done. simpl. lia.
    + eexists [_]. repeat split; try done.
    + eexists [_]. repeat split; try done.
  - exists []. unfold framed, run, set. unfold_monad. rewrite app_nil_r.
    destruct (target (self w) k); repeat split; try done; simpl; lia.
  - exists []. unfold framed. rewrite app_nil_r. repeat split; try done. simpl. lia.
Qed.

(** X11. No operation of the state machine ([play], [setVolume], [pause],
    [resume], [seek], [setRepeatMode], [skip], [set], [clearData]) calls the
    node more than once, and none removes or rewrites a call made before:
    after any sequence of operations the calls made are those made before
    it, followed by at most one new call for each operation. *)
Theorem operations_send_at_most_one (ops : list Op) (w : World) :
  ∃ calls, sent (foldl (λ w op, run op w) w ops) = sent w ++ calls ∧
           (length calls ≤ length ops)%nat.
Proof.
  revert w. induction ops as [|op ops IH]; intros w.
  - exists []. by rewrite app_nil_r.
  - simpl. destruct (run_framed op w) as (calls & (Hsent & _) & Hlen).
    destruct (IH (run op w)) as (rest & Hrest & Hn).
    exists (calls ++ rest). rewrite Hrest, Hsent, <-app_assoc. split; [done|].
    rewrite length_app. lia.
Qed.

(** X12. No operation of the state machine changes who the player is: its
    options, manager, node and guild id, its voice and text channel ids, and
    the [playing] flag are as before, whether the operation returns or
    throws; nor does any of them emit an event. In particular nothing in
    [Player.ts] ever sets [playing]. *)
Theorem operations_keep_identity (ops : list Op) (w : World) :
  identity (self (foldl (λ w op, run op w) w ops)) = identity (self w) ∧
  emitted (foldl (λ w op, run op w) w ops) = emitted w.
Proof.
  revert w. induction ops as [|op ops IH]; intros w; [done|]. simpl.
  destruct (run_framed op w) as (calls & (_ & Hem & Hid) & _).
  destruct (IH (run op w)) as [-> ->]. done.
Qed.
End Frames.

(** ** The constructor *)

Section Construction.
Context `{!QueueOps} `{!Clock}.

(** X13. A constructed player: it has emitted [playerCreate] and nothing
    else, its queue is empty, it is neither playing nor paused, repeats
    nothing, is at position 0 and has no data. Without a starting volume,
    or with NaN as one (which is ignored, not rejected), nothing has been
    sent to the node, [volume] is 100 times the decrementer and
    [lavalinkVolume] is 100. With a starting volume, one update has been
    sent and [volume] is its clamp into 0..500. *)
Theorem constructor_initial_state (opts : PlayerOptions) (mgr : LavalinkManager) (w : World) :
  constructor opts mgr = Returned w →
  emitted w = ["playerCreate"] ∧
  queue (self w) = Queue.empty ∧
  playing (self w) = false ∧ paused (self w) = false ∧
  repeatMode (self w) = RepeatOff ∧ position (self w) = ofZ 0 ∧
  data (self w) = ∅ ∧
  guildId (self w) = opt_guildId opts ∧
  options (self w) = opts ∧ manager (self w) = mgr ∧
  match opt_volume opts with
  | Some v =>
      if Num.isNaN v
      then sent w = [] ∧ volume (self w) = decrement mgr (ofZ 100) ∧
           lavalinkVolume (self w) = ofZ 100
      else (∃ call, sent w = [call]) ∧
           volume (self w) = clamp v (ofZ 0) (ofZ 500) ∧
           lavalinkVolume (self w) = floor2 (decrement mgr (clamp v (ofZ 0) (ofZ 500)))
  | None => sent w = [] ∧ volume (self w) = decrement mgr (ofZ 100) ∧
            lavalinkVolume (self w) = ofZ 100
  end.
Proof.
  unfold constructor.
  destruct (select_node mgr (opt_vcRegion opts)) as [n|]; [|done].
  unfold constructor_body, decrement. unfold_monad. cbn [manager initial].
  destruct (opt_volume opts) as [v|]; [destruct (Num.isNaN v) eqn:Hn|].
  - destruct (configured _); intros [= <-]; by repeat split.
  - destruct (configured _) as [d|] eqn:Hd; cbn beta iota;
      match goal with
      | |- context [setVolume v false ?w1] =>
          rewrite (setVolume_runs w1 v false Hn)
      end; intros [= <-]; cbn; unfold decrement; cbn; rewrite Hd;
      rewrite <-(max_min_clamp v) by done; repeat split; try done; by eexists.
  - destruct (configured _); intros [= <-]; by repeat split.
Qed.
End Construction.

Lemma constructor_initial_state_witness :
  let mgr := Sample.manager_of Sample.pool (Some (ofQ (1 # 2))) false in
  ∃ w, @constructor Sample.clock (Sample.options_of (Some NaN) None) mgr = Returned w ∧
       sent w = [] ∧ emitted w = ["playerCreate"] ∧
       volume (self w) = decrement mgr (ofZ 100) ∧ lavalinkVolume (self w) = ofZ 100.
Proof.
  intros mgr. eexists. split; [reflexivity|].
  destruct (@constructor_initial_state Sample.clock (Sample.options_of (Some NaN) None)
              mgr _ eq_refl) as (Hem & _ & _ & _ & _ & _ & _ & _ & _ & _ & Hs & Hv & Hl).
  by repeat split.
Defined.

(** ** connect, disconnect and destroy *)

Section LifecycleFacts.
Context `{!QueueOps} `{!Clock}.
Import Lifecycle.


End LifecycleFacts.



(** ** search: what the envelope holds *)

Section SearchMore.
Context {T : Type} `{!JS.Host T}.

(** X16. A response that is not a playlist is always turned into an
    envelope: no playlist; the exception is the data of an [error]
    response and [null] otherwise; the plugin information is passed on, or
    [{}] when it is falsy; the tracks are the built data of a [track]
    response, the built elements (in order) of a [search] response whose
    data is an array or its built data when it is not, and none for [empty]
    and [error]. *)
Theorem search_envelope (res : RawResponse) (requestUser : value) :
  res_loadType res ≠ LoadPlaylist →
  let raw := match res_loadType res with
             | LoadTrack => [res_data res]
             | LoadSearch => match res_data res with
                             | VArray l => l
                             | d => [d]
                             end
             | _ => []
             end in
  search res requestUser
  = Returned
      {| sr_loadType := res_loadType res;
         sr_exception := match res_loadType res with
                         | LoadError => res_data res
                         | _ => VNull
                         end;
         sr_pluginInfo := if JS.truthy (res_pluginInfo res) then res_pluginInfo res
                          else VObject [];
         sr_playlist := None;
         sr_tracks := map (λ t, JS.buildTrack t requestUser) raw |}.
Proof.
  intros Hl raw. unfold search, raw.
  rewrite (bool_decide_eq_false_2 (res_loadType res = LoadPlaylist)) by done.
  destruct (res_loadType res); try done; subst raw;
    try (destruct (res_data res) as [| | | | |l| |]; cbn [JS.isArray]);
    by rewrite ?built_tracks_array.
Qed.

(** The [playlist] member, one property after the other. *)
Lemma playlist_of_returns (data resTracks requestUser : value) (pl : PlaylistInfo T) :
  playlist_of data resTracks requestUser = Returned pl →
  total_duration resTracks = Returned (pl_duration pl) ∧
  (if no_selection (selectedTrack_of data) then mret None
   else t ← selected resTracks (selectedTrack_of data);
        if JS.truthy t then
          t1 ← selected resTracks (selectedTrack_of data);
          mret (Some (JS.buildTrack t1 requestUser))
        else mret None) = Returned (pl_selectedTrack pl) ∧
  (a ← data_field data "info" "name";
   JS.or_else a (b ← data_field data "pluginInfo" "name";
   JS.or_else b (mret VNull))) = Returned (pl_name pl) ∧
  (a ← data_field data "info" "author";
   JS.or_else a (b ← data_field data "pluginInfo" "author";
   JS.or_else b (mret VNull))) = Returned (pl_author pl) ∧
  (a ← data_field data "info" "url";
   JS.or_else a (b ← data_field data "info" "uri";
   JS.or_else b (c ← data_field data "info" "link";
   JS.or_else c (d ← data_field data "pluginInfo" "url";
   JS.or_else d (e ← data_field data "pluginInfo" "uri";
   JS.or_else e (f ← data_field data "pluginInfo" "link";
   JS.or_else f (mret VNull))))))) = Returned (pl_uri pl).
Proof.
  unfold playlist_of.
  repeat match goal with
         | |- (?o ≫= _) = Returned _ → _ =>
             let x := fresh "x" in destruct o as [x|] eqn:?; [cbn [mbind outcome_bind obind]|done]
         end.
  intros [= <-]. done.
Qed.

(** The playlist of a response that [search] returned for. *)
Lemma search_playlist_returns (data pluginInfo requestUser : value) (r : SearchResult T) :
  search (playlist_response data pluginInfo) requestUser = Returned r →
  ∃ pl, sr_playlist r = Some pl ∧
        playlist_of data (JS.get_opt data "tracks") requestUser = Returned pl ∧
        built_tracks (JS.get_opt data "tracks") requestUser = Returned (sr_tracks r).
Proof.
  unfold search, playlist_response. cbn [res_loadType res_data res_pluginInfo].
  rewrite (bool_decide_eq_true_2 (LoadPlaylist = LoadPlaylist)) by done.
  destruct (playlist_of _ _ _) as [pl|]; [|done].
  cbn [mbind outcome_bind obind mret outcome_ret].
  destruct (built_tracks _ _) as [ts|]; [|done].
  cbn [mbind outcome_bind obind]. intros [= <-]. by exists pl.
Qed.


End SearchMore.

Section PlaylistMore.
Context {T : Type} `{!JS.Host T}.

Lemma as_integer_ofZ (z : Z) : Num.as_integer (ofZ z) = Some z.
Proof.
  unfold Num.as_integer, Num.ofZ. rewrite Qfloor_ofZ. by rewrite bool_decide_eq_true_2.
Qed.

Lemma ofZ_inj (x y : Z) : ofZ x = ofZ y → x = y.
Proof.
  intros Heq.
  pose proof (f_equal (λ n, match n with Fin q => Qfloor q | _ => 0 end) Heq) as Hf.
  unfold Num.ofZ in Hf. by rewrite !Qfloor_ofZ in Hf.
Qed.

Lemma selection_of_index (i : nat) : no_selection (VNumber (ofZ (Z.of_nat i))) = false.
Proof.
  unfold no_selection, Num.strict_eq. simpl.
  apply bool_decide_eq_false. intros Heq. apply ofZ_inj in Heq. lia.
Qed.

Lemma selected_index (l : list value) (i : nat) :
  selected (VArray l) (VNumber (ofZ (Z.of_nat i))) = Returned (default VUndefined (l !! i)).
Proof.
  unfold selected, JS.index. rewrite as_integer_ofZ.
  rewrite bool_decide_eq_true_2 by lia. by rewrite Nat2Z.id.
Qed.

(** X18. The selected track of a playlist with a tracks array: none when
    [info.selectedTrack] is not a number or is -1; with an index inside the
    array, the track built from the raw track at that index (none if that
    raw track is falsy); with an index beyond the array, none. *)
Theorem playlist_selected_track (props : list (string * value)) (l : list value)
    (pluginInfo requestUser : value) :
  JS.own props "tracks" = VArray l →
  let sel := member_of props "info" "selectedTrack" in
  ∃ r pl, search (playlist_response (VObject props) pluginInfo) requestUser = Returned r ∧
          sr_playlist r = Some pl ∧
          ((∀ n, sel ≠ VNumber n) ∨ sel = VNumber (ofZ (-1)) →
             pl_selectedTrack pl = None) ∧
          (∀ (i : nat) (t : value),
             sel = VNumber (ofZ (Z.of_nat i)) → l !! i = Some t →
             pl_selectedTrack pl
             = if JS.truthy t then Some (JS.buildTrack t requestUser) else None) ∧
          (∀ i : nat,
             sel = VNumber (ofZ (Z.of_nat i)) → (length l ≤ i)%nat →
             pl_selectedTrack pl = None).
Proof.
  intros Ht sel.
  destruct (search_total_playlist_with_tracks props l pluginInfo requestUser Ht)
    as (r & Hr & _).
  destruct (search_playlist_returns _ _ _ _ Hr) as (pl & Hpl & Hof & _).
  exists r, pl. split; [done|]. split; [done|].
  apply playlist_of_returns in Hof as (_ & Hsel & _).
  change (JS.get_opt (VObject props) "tracks") with (JS.own props "tracks") in Hsel.
  change (selectedTrack_of (VObject props)) with sel in Hsel.
  rewrite Ht in Hsel. split; [|split].
  - intros [Hno | Hminus].
    + destruct sel as [| | |n| | | |]; try (by injection Hsel as <-).
      by destruct (Hno n).
    + rewrite Hminus in Hsel. by injection Hsel as <-.
  - intros i t Hi Hlook. rewrite Hi, selection_of_index, selected_index, Hlook in Hsel.
    simpl in Hsel. destruct (JS.truthy t); by injection Hsel as <-.
  - intros i Hi Hlen. rewrite Hi, selection_of_index, selected_index in Hsel.
    rewrite lookup_ge_None_2 in Hsel by done. by injection Hsel as <-.
Qed.

(** X19. The metadata of a playlist follows fixed precedence chains: the
    name is [info.name], else [pluginInfo.name], else [null]; the author
    likewise; the uri is the first truthy of [info.url], [info.uri],
    [info.link], [pluginInfo.url], [pluginInfo.uri], [pluginInfo.link],
    else [null]. *)
Theorem playlist_metadata_precedence (props : list (string * value))
    (pluginInfo requestUser : value) (r : SearchResult T) :
  search (playlist_response (VObject props) pluginInfo) requestUser = Returned r →
  ∃ pl, sr_playlist r = Some pl ∧
        pl_name pl = first_truthy [member_of props "info" "name";
                                   member_of props "pluginInfo" "name"] ∧
        pl_author pl = first_truthy [member_of props "info" "author";
                                     member_of props "pluginInfo" "author"] ∧
        pl_uri pl = first_truthy [member_of props "info" "url";
                                  member_of props "info" "uri";
                                  member_of props "info" "link";
                                  member_of props "pluginInfo" "url";
                                  member_of props "pluginInfo" "uri";
                                  member_of props "pluginInfo" "link"].
Proof.
  intros Hr. destruct (search_playlist_returns _ _ _ _ Hr) as (pl & Hpl & Hof & _).
  exists pl. split; [done|].
  apply playlist_of_returns in Hof as (_ & _ & Hname & Hauthor & Huri).
  unfold data_field in *.
  change (JS.get (VObject props) ?o) with (Returned (JS.own props o)) in *.
  unfold first_truthy, JS.or_else, member_of in *.
  cbn [mbind outcome_bind obind mret outcome_ret List.find] in *.
  split; [|split].
  - repeat match goal with
           | |- context [if JS.truthy ?a then _ else _] =>
               destruct (JS.truthy a); try (by injection Hname as <-)
           end.
  - repeat match goal with
           | |- context [if JS.truthy ?a then _ else _] =>
               destruct (JS.truthy a); try (by injection Hauthor as <-)
           end.
  - repeat match goal with
           | |- context [if JS.truthy ?a then _ else _] =>
               destruct (JS.truthy a); try (by injection Huri as <-)
           end.
Qed.
End PlaylistMore.

Section PlaylistTracksShape.
Context {T : Type} `{!JS.Host T}.

Lemma bind_returns_then_throws {A B} (o : outcome A) (k : A → outcome B) (e : JSError) :
  returns o = true → (∀ a, k a = Thrown e) → o ≫= k = Thrown e.
Proof. intros Ho Hk. destruct o as [a|]; [apply Hk|done]. Qed.

Lemma index_returns (v : value) (n : number) :
  JS.nullish v = false → returns (JS.index v n) = true.
Proof.
  intros Hv. destruct v; try done; simpl;
    destruct (Num.as_integer n); try done; by case_bool_decide.
Qed.

Lemma selected_returns (resTracks sel : value) :
  JS.nullish resTracks = false → returns (selected resTracks sel) = true.
Proof. intros Hv. destruct sel; try done. by apply index_returns. Qed.

Lemma get_returns (v : value) (k : string) :
  JS.nullish v = false → ∃ x, JS.get v k = Returned x.
Proof.
  intros Hv. destruct v; try done; simpl; repeat case_bool_decide; by eexists.
Qed.

(** X20. A playlist whose [tracks] member is there but is not an array (a
    string, a number, an object) is never mapped over. When its [length] is
    truthy, [search] throws the [TypeError] "resTracks.reduce is not a
    function"; otherwise it returns an envelope with no tracks and a
    playlist of duration 0. *)
Theorem playlist_tracks_not_array (props : list (string * value))
    (pluginInfo requestUser : value) :
  JS.nullish (JS.own props "tracks") = false →
  JS.isArray (JS.own props "tracks") = false →
  ∃ len, JS.get (JS.own props "tracks") "length" = Returned len ∧
         (JS.truthy len = true →
            search (playlist_response (VObject props) pluginInfo) requestUser
            = Thrown (JS.not_a_function "resTracks.reduce")) ∧
         (JS.truthy len = false →
            ∃ r pl, search (playlist_response (VObject props) pluginInfo) requestUser
                    = Returned r ∧
                    sr_tracks r = [] ∧ sr_playlist r = Some pl ∧
                    pl_duration pl = VNumber (ofZ 0)).
Proof.
  intros Hnull Harr.
  destruct (get_returns (JS.own props "tracks") "length" Hnull) as [len Hlen].
  exists len. split; [done|].
  unfold search, playlist_response. cbn [res_loadType res_data res_pluginInfo].
  rewrite (bool_decide_eq_true_2 (LoadPlaylist = LoadPlaylist)) by done.
  change (JS.get_opt (VObject props) "tracks") with (JS.own props "tracks").
  remember (JS.own props "tracks") as rt eqn:Hrt. clear Hrt.
  split.
  - intros Htruthy.
    assert (playlist_of (VObject props) rt requestUser
            = Thrown (JS.not_a_function "resTracks.reduce")) as ->; [|done].
    assert (∀ k : value → outcome (PlaylistInfo T),
              total_duration rt ≫= k = Thrown (JS.not_a_function "resTracks.reduce"))
      as Hdur.
    { intros k. unfold total_duration. rewrite Hlen.
      cbn [mbind outcome_bind obind]. rewrite Htruthy. by destruct rt. }
    unfold playlist_of.
    repeat first
      [ apply Hdur
      | apply data_field_returns
      | apply selected_returns; exact Hnull
      | apply or_else_returns
      | apply bind_returns_then_throws; [|intros ?]
      | apply bind_returns; [|intros ?]
      | match goal with |- returns (if ?b then _ else _) = true => destruct b end
      | done ].
  - intros Hfalsy.
    assert (total_duration rt = Returned (VNumber (ofZ 0))) as Hdur.
    { unfold total_duration. rewrite Hlen. cbn [mbind outcome_bind obind].
      by rewrite Hfalsy. }
    assert (built_tracks rt requestUser = Returned []) as Hbuilt.
    { unfold built_tracks. rewrite Hlen. cbn [mbind outcome_bind obind].
      by rewrite Hfalsy. }
    assert (returns (playlist_of (VObject props) rt requestUser) = true) as Hret.
    { unfold playlist_of. rewrite Hdur.
      repeat first
        [ apply data_field_returns
        | apply selected_returns; exact Hnull
        | apply or_else_returns
        | apply bind_returns; [|intros ?]
        | match goal with |- returns (if ?b then _ else _) = true => destruct b end
        | done ]. }
    destruct (playlist_of (VObject props) rt requestUser) as [pl|] eqn:Hpl; [|done].
    rewrite Hbuilt. eexists _, pl. split; [done|]. split; [done|]. split; [done|].
    apply playlist_of_returns in Hpl as [Hd _]. rewrite Hdur in Hd. by injection Hd.
Qed.
End PlaylistTracksShape.

(** ** The request of a search *)

Section RequestFacts.
Context `{!SearchEnv}.

Lemma prefix_append (p s : string) :
  String.prefix p s = true ↔ ∃ rest, s = p +:+ rest.
Proof.
  revert s. induction p as [|a p IH]; intros s.
  - destruct s; simpl; (split; [by eexists|done]).
  - destruct s as [|b s]; simpl.
    { split; [done|by intros [rest ?]]. }
    destruct (Ascii.ascii_dec a b) as [->|Hne].
    + rewrite IH. split; intros [rest Hrest]; exists rest.
      * by rewrite Hrest.
      * change (String b p +:+ rest) with (String b (p +:+ rest)) in Hrest.
        by injection Hrest.
    + split; [done|]. intros [rest Hrest].
      change (String a p +:+ rest) with (String a (p +:+ rest)) in Hrest.
      by injection Hrest.
Qed.

(** X21. The path requested for a search. A query that starts with
    [http://] or [https://] (in lower case) is requested as it is, encoded,
    whatever source was asked for. Any other query is prefixed with a
    source and a colon: the alias that [DEFAULT_SOURCES] has for the source
    asked for (or, without one, for the default platform), and that source
    itself when the table has no alias for it. A query given as a bare
    string has no source of its own. *)
Theorem request_path_source (query : SearchQuery) :
  let text := query_text query in
  let asked := default defaultSearchPlatform (query_source query) in
  ((∃ rest, text = "http://" +:+ rest ∨ text = "https://" +:+ rest) →
     request_path query = "/loadtracks?identifier=" +:+ encodeURIComponent text) ∧
  ((∀ rest, text ≠ "http://" +:+ rest ∧ text ≠ "https://" +:+ rest) →
     (∀ alias, DEFAULT_SOURCES !! asked = Some alias →
        request_path query
        = "/loadtracks?identifier=" +:+ (alias +:+ ":") +:+ encodeURIComponent text) ∧
     (DEFAULT_SOURCES !! asked = None →
        request_path query
        = "/loadtracks?identifier=" +:+ (asked +:+ ":") +:+ encodeURIComponent text)) ∧
  (∀ q, query = QueryString q → asked = defaultSearchPlatform).
Proof.
  intros text asked. unfold request_path, source_of. fold text asked.
  assert (is_http_url text = true ↔
          ∃ rest, text = "http://" +:+ rest ∨ text = "https://" +:+ rest) as Hurl.
  { unfold is_http_url. rewrite orb_true_iff, !prefix_append. split.
    - intros [[rest ?] | [rest ?]]; exists rest; auto.
    - intros [rest [? | ?]]; [left | right]; by exists rest. }
  split; [|split].
  - intros Hu. apply Hurl in Hu. by rewrite Hu.
  - intros Hno. assert (is_http_url text = false) as ->.
    { destruct (is_http_url text); [|done]. destruct Hurl as [[rest Hu] _]; [done|].
      destruct (Hno rest). by destruct Hu. }
    split; [by intros alias ->|by intros ->].
  - by intros q ->.
Qed.
End RequestFacts.

(** ** The Bandcamp search *)

Section BandcampFacts.
Context {U : Type} `{!BandcampHost U}.
Import Bandcamp.

Lemma append_char (acc : string) (c : Ascii.ascii) (rest : string) :
  (acc +:+ String c EmptyString) +:+ rest = acc +:+ String c rest.
Proof.
  induction acc as [|a acc IH]; [done|].
  change (String a ((acc +:+ String c EmptyString) +:+ rest)
          = String a (acc +:+ String c rest)).
  by rewrite IH.
Qed.

Lemma last_segment_from_no_slash (acc s : string) :
  no_slash s = true → last_segment_from acc s = acc +:+ s.
Proof.
  revert acc. induction s as [|c s IH]; intros acc; simpl.
  - intros _. induction acc as [|a acc IHa]; [done|].
    change (String a acc +:+ "") with (String a (acc +:+ "")). by rewrite <-IHa.
  - intros [Hc Hs]%andb_true_iff. apply negb_true_iff in Hc. rewrite Hc.
    rewrite IH by done. apply append_char.
Qed.

Lemma last_segment_from_slash (acc dir seg : string) :
  last_segment_from acc (dir +:+ "/" +:+ seg) = last_segment_from "" seg.
Proof.
  revert acc. induction dir as [|c dir IH]; intros acc.
  - done.
  - change (String c dir +:+ ?x) with (String c (dir +:+ x)). simpl.
    destruct (bool_decide _); apply IH.
Qed.

(** X22. The identifier of a Bandcamp item. A truthy [id] that is a
    string is the identifier. Without a truthy [id], the identifier is what
    follows the last ["/"] of [url]: the last path segment, the whole [url]
    when it has no ["/"], the empty string when it ends in one; and it is
    [undefined] when there is no [url]. A [url] that is there but is not a
    string throws a [TypeError]. *)
Theorem bandcamp_identifier (props : list (string * value)) :
  (∀ s, JS.own props "id" = VString s → s ≠ "" →
        identifier_of (VObject props) = Returned (VString s)) ∧
  (JS.truthy (JS.own props "id") = false →
     (∀ dir seg, JS.own props "url" = VString (dir +:+ "/" +:+ seg) →
                 no_slash seg = true →
                 identifier_of (VObject props) = Returned (VString seg)) ∧
     (∀ s, JS.own props "url" = VString s → no_slash s = true →
           identifier_of (VObject props) = Returned (VString s)) ∧
     (JS.nullish (JS.own props "url") = true →
        identifier_of (VObject props) = Returned VUndefined) ∧
     (url_not_splittable (VObject props) = true →
        identifier_of (VObject props) = Thrown (JS.not_a_function "item.url?.split"))).
Proof.
  unfold identifier_of.
  change (JS.get (VObject props) ?k) with (Returned (JS.own props k)).
  cbn [mbind outcome_bind obind mret outcome_ret]. split.
  - intros s -> Hs. simpl. by rewrite bool_decide_eq_false_2.
  - intros ->. split; [|split; [|split]].
    + intros dir seg -> Hseg. unfold last_segment.
      by rewrite last_segment_from_slash, last_segment_from_no_slash.
    + intros s -> Hs. unfold last_segment. by rewrite last_segment_from_no_slash.
    + by destruct (JS.own props "url").
    + unfold url_not_splittable. intros [_ Hurl]%andb_true_iff.
      by destruct (JS.own props "url").
Qed.

(** X23. What [bandCampSearch] makes of a response that is not a list of
    results. When the request or the parsing of its body threw, the
    exception is in the envelope and the tracks are the empty array. When
    the body is [null] or has no [results], there is no exception and
    [tracks] is [undefined], not an array. When [results] is there but is
    not an array, the exception is the [TypeError] of calling its missing
    [filter], and the tracks are the empty array. *)
Theorem bandcamp_without_results :
  (∀ e, bandCampSearch (Thrown e) = {| bc_exception := Some e; bc_tracks := Some [] |}) ∧
  (∀ json, JS.nullish (JS.get_opt json "results") = true →
     bandCampSearch (Returned json) = {| bc_exception := None; bc_tracks := None |}) ∧
  (∀ json, JS.nullish (JS.get_opt json "results") = false →
           JS.isArray (JS.get_opt json "results") = false →
     bandCampSearch (Returned json)
     = {| bc_exception := Some (JS.not_a_function "json?.results?.filter");
          bc_tracks := Some [] |}).
Proof.
  unfold bandCampSearch, tracks_of. cbn [mbind outcome_bind obind mret outcome_ret].
  split; [done|]. split.
  - intros json Hn. unfold JS.get_opt in Hn.
    destruct (JS.nullish json) eqn:Hj; [done|].
    destruct (JS.get json "results") as [r|] eqn:Hr; [|by destruct json].
    cbn [mbind outcome_bind obind]. by rewrite Hn.
  - intros json Hn Harr. unfold JS.get_opt in Hn, Harr.
    destruct (JS.nullish json) eqn:Hj; [done|].
    destruct (JS.get json "results") as [r|] eqn:Hr; [|by destruct json].
    cbn [mbind outcome_bind obind]. rewrite Hn. by destruct r.
Qed.





End BandcampFacts.

(** ** Examples of the further properties *)

Lemma search_envelope_witness :
  @search value Sample.host
    {| res_loadType := LoadSearch;
       res_data := VArray [VString "a"; VString "b"];
       res_pluginInfo := VUndefined |} VNull
  = Returned
      {| sr_loadType := LoadSearch;
         sr_exception := VNull;
         sr_pluginInfo := VObject [];
         sr_playlist := None;
         sr_tracks := map (λ t, @JS.buildTrack value Sample.host t VNull)
                          [VString "a"; VString "b"] |}.
Proof.
  apply (@search_envelope value Sample.host
           {| res_loadType := LoadSearch;
              res_data := VArray [VString "a"; VString "b"];
              res_pluginInfo := VUndefined |} VNull).
  discriminate.
Defined.


Lemma playlist_selected_track_witness :
  let first := VObject [("info", VObject [("duration", VNumber (ofZ 1000))])] in
  let props := [("info", VObject [("selectedTrack", VNumber (ofZ 0))]);
                ("tracks", VArray [first])] in
  ∃ r pl,
    @search value Sample.host (playlist_response (VObject props) VUndefined) VNull
    = Returned r ∧
    sr_playlist r = Some pl ∧
    pl_selectedTrack pl = Some (@JS.buildTrack value Sample.host first VNull).
Proof.
  intros first props.
  destruct (@playlist_selected_track value Sample.host props [first] VUndefined VNull)
    as (r & pl & Hr & Hpl & _ & Hin & _); [reflexivity|].
  exists r, pl. split; [exact Hr|]. split; [exact Hpl|].
  exact (Hin 0%nat first eq_refl eq_refl).
Defined.

Lemma playlist_metadata_precedence_witness :
  let props := [("info", VObject [("name", VString ""); ("uri", VString "u")]);
                ("pluginInfo", VObject [("name", VString "mix"); ("url", VString "p")]);
                ("tracks", VArray [])] in
  ∃ r pl,
    @search value Sample.host (playlist_response (VObject props) VUndefined) VNull
    = Returned r ∧
    sr_playlist r = Some pl ∧
    pl_name pl = VString "mix" ∧ pl_author pl = VNull ∧ pl_uri pl = VString "u".
Proof.
  intros props.
  destruct (@search_total_playlist_with_tracks value Sample.host props []
              VUndefined VNull eq_refl) as (r & Hr & _).
  destruct (@playlist_metadata_precedence value Sample.host props VUndefined VNull r Hr)
    as (pl & Hpl & Hname & Hauthor & Huri).
  exists r, pl. split; [exact Hr|]. split; [exact Hpl|].
  split; [exact Hname|]. split; [exact Hauthor|exact Huri].
Defined.

Lemma playlist_tracks_not_array_witness :
  @search value Sample.host
    (playlist_response (VObject [("tracks", VString "abc")]) VUndefined) VNull
  = Thrown (JS.not_a_function "resTracks.reduce").
Proof.
  destruct (@playlist_tracks_not_array value Sample.host
              [("tracks", VString "abc")] VUndefined VNull)
    as (len & Hlen & Hthrows & _); [reflexivity|reflexivity|].
  apply Hthrows. injection Hlen as <-. reflexivity.
Defined.

Lemma request_path_source_witness :
  @request_path SampleSearch.env (QueryObject "lofi" (Some "soundcloud"))
  = "/loadtracks?identifier=scsearch:lofi" ∧
  @request_path SampleSearch.env (QueryObject "lofi" (Some "deezer"))
  = "/loadtracks?identifier=deezer:lofi" ∧
  @request_path SampleSearch.env (QueryString "https://a.b/c")
  = "/loadtracks?identifier=https://a.b/c".
Proof.
  split; [|split].
  - destruct (@request_path_source SampleSearch.env
                (QueryObject "lofi" (Some "soundcloud"))) as (_ & Hsrc & _).
    destruct Hsrc as [Halias _]; [by intros rest|].
    exact (Halias "scsearch" eq_refl).
  - destruct (@request_path_source SampleSearch.env
                (QueryObject "lofi" (Some "deezer"))) as (_ & Hsrc & _).
    destruct Hsrc as [_ Hnone]; [by intros rest|].
    exact (Hnone eq_refl).
  - destruct (@request_path_source SampleSearch.env (QueryString "https://a.b/c"))
      as (Hurl & _).
    apply Hurl. exists "a.b/c". by right.
Defined.

Lemma bandcamp_identifier_witness :
  @Bandcamp.identifier_of UnresolvedQuery SampleSearch.bandcamp
    (SampleSearch.track_item VUndefined (VString "https://a.bandcamp.com/track/song")
       (VString "Song"))
  = Returned (VString "song").
Proof.
  destruct (@bandcamp_identifier UnresolvedQuery SampleSearch.bandcamp
              [("type", VString "t"); ("id", VUndefined);
               ("url", VString "https://a.bandcamp.com/track/song");
               ("name", VString "Song")]) as [_ Hurl].
  destruct Hurl as (Hseg & _); [reflexivity|].
  apply (Hseg "https://a.bandcamp.com/track" "song"); reflexivity.
Defined.

Lemma bandcamp_without_results_witness :
  @Bandcamp.bandCampSearch UnresolvedQuery SampleSearch.bandcamp
    (Returned (VObject [("results", VString "none")]))
  = {| bc_exception := Some (JS.not_a_function "json?.results?.filter");
       bc_tracks := Some [] |} ∧
  @Bandcamp.bandCampSearch UnresolvedQuery SampleSearch.bandcamp
    (Returned (VObject [("auto", VObject [])]))
  = {| bc_exception := None; bc_tracks := None |}.
Proof.
  destruct (@bandcamp_without_results UnresolvedQuery SampleSearch.bandcamp)
    as (_ & Hnone & Hbad).
  split.
  - apply Hbad; reflexivity.
  - apply Hnone; reflexivity.
Defined.


